(** * Tribler torrent checker: a shallow embedding of
      [Tribler/Core/TorrentChecker/torrent_checker.py]

    The checker's Python state (the session registry, the list of collected
    completion signals, the flags) and the collaborators it drives (metadata
    store, tracker manager, popularity community, notifier, probe sessions)
    are one record that every method reads and writes.  A method is a
    function from that record to an outcome (a value or a raised Python
    exception) and the record it leaves behind: what was written before a
    [raise] stays written. *)

From Stdlib Require Import QArith Qpower Ascii String.
From stdpp Require Import base numbers option list strings gmap fin_maps.

Local Open Scope string_scope.
Local Open Scope list_scope.
Local Open Scope Z_scope.

(** ** Settings (module constants, lines 24-28) *)

Definition DEFAULT_TORRENT_SELECTION_INTERVAL : Z := 20.
Definition DEFAULT_TORRENT_CHECK_INTERVAL : Z := 900.
Definition DEFAULT_MAX_TORRENT_CHECK_RETRIES : Z := 8.
Definition DEFAULT_TORRENT_CHECK_RETRY_INTERVAL : Z := 30.

(** ** Python values that travel through the checker *)

(** The exception classes the code names, and the built-in ones its
    subscripting and attribute accesses raise. *)
Inductive exn : Set :=
  | ValueError
  | CancelledError
  | ConnectingCancelledError
  | ConnectionLost
  | RuntimeError
  | MalformedTrackerURLException
  | KeyError
  | IndexError
  | AttributeError.

Global Instance exn_eq_dec : EqDecision exn.
Proof. solve_decision. Defined.

(** A [twisted.python.failure.Failure]: the wrapped exception, its message,
    and the [tracker_url] attribute that [on_session_error] attaches
    (absent on a failure that never went through it). *)
Record Failure : Set := mkFailure {
  f_type : exn;
  f_message : string;
  f_tracker_url : option string
}.

(** One entry of a session's result list: the dict with the keys
    ['seeders'], ['leechers'] and ['infohash']. *)
Record health : Set := mkHealth {
  h_seeders : Z;
  h_leechers : Z;
  h_infohash : string
}.

(** What a participant's deferred delivers.  A session's result is a dict
    from tracker identity to a list of [health] entries, kept here in the
    dict's iteration order; [RNone] is the [None] that
    [_on_result_from_session] returns once the checker is stopping. *)
Inductive response : Set :=
  | RFailure (f : Failure)
  | RDict (d : list (string * list health))
  | RNone.

(** An element of a [DeferredList] result: [(success, response)]. *)
Definition outcome : Set := (bool * response)%type.

(** An entry of the dict that [on_gui_request_completed] returns. *)
Inductive entry : Set :=
  | EError (msg : string)
  | EHealth (h : health).

(** Outcome of running Python code: a value or a raised exception. *)
Inductive res (A : Type) : Type :=
  | Ok (a : A)
  | Raise (e : exn).
Arguments Ok {A} a.
Arguments Raise {A} e.

Definition res_bind {A B} (r : res A) (k : A → res B) : res B :=
  match r with
  | Ok a => k a
  | Raise e => Raise e
  end.

(** A [for] loop whose body may raise: the first exception ends the loop. *)
Fixpoint for_res {A B} (body : A → B → res A) (l : list B) (a : A) : res A :=
  match l with
  | [] => Ok a
  | x :: l' => res_bind (body a x) (for_res body l')
  end.

(** [time.time()] is a real number of seconds, [int(...)] truncates it. *)
Definition py_int (t : Q) : Z := Z.quot (Qnum t) (Z.pos (Qden t)).

(** [x < y] on such numbers. *)
Definition Qltb (x y : Q) : bool :=
  Qnum x * Z.pos (Qden y) <? Qnum y * Z.pos (Qden x).

(** ** Reconciliation: [on_gui_request_completed], lines 182-198 *)

(** The local [torrent_update_dict]. *)
Record torrent_update : Set := mkUpdate {
  u_infohash : string;
  u_seeders : Z;
  u_leechers : Z;
  u_last_check : Z
}.

(** The test of lines 195-196 on a sample [(s, l)] against the current
    [torrent_update_dict]. *)
Definition improves (s l : Z) (u : torrent_update) : bool :=
  (u_seeders u <? s) || ((s =? u_seeders u) && (u_leechers u <? l)).

(** The loop body, lines 186-198, on the pair of locals
    [(final_response, torrent_update_dict)]. *)
Definition gui_body (acc : gmap string entry * torrent_update) (o : outcome)
  : res (gmap string entry * torrent_update) :=
  let '(final_response, u) := acc in
  let '(success, resp) := o in
  match resp with
  | RFailure f =>
      if negb success then
        match f_tracker_url f with
        | Some url => Ok (<[url := EError (f_message f)]> final_response, u)
        | None => Raise AttributeError
        end
      else Raise AttributeError
  | RNone => Raise AttributeError
  | RDict [] => Raise IndexError
  | RDict ((_, []) :: _) => Raise IndexError
  | RDict ((key, h :: _) :: _) =>
      let final_response := <[key := EHealth h]> final_response in
      let s := h_seeders h in
      let l := h_leechers h in
      if improves s l u
      then Ok (final_response,
               {| u_infohash := u_infohash u; u_seeders := s;
                  u_leechers := l; u_last_check := u_last_check u |})
      else Ok (final_response, u)
  end.

(** Lines 182-198: the locals after the loop over [reversed(result)]. *)
Definition reconcile (infohash : string) (now : Q) (result : list outcome)
  : res (gmap string entry * torrent_update) :=
  for_res gui_body (reverse result)
    (∅, {| u_infohash := infohash; u_seeders := 0; u_leechers := 0;
           u_last_check := py_int now |}).

(** The reconciled [(seeders, leechers)], when the loop ran to its end. *)
Definition seeders_leechers (r : res (gmap string entry * torrent_update))
  : option (Z * Z) :=
  match r with
  | Ok (_, u) => Some (u_seeders u, u_leechers u)
  | Raise _ => None
  end.

(** ** The checker and the world it runs in *)

(** A probe session object.  [sid] stands for the object's identity, which
    is what Python's [list.remove] compares sessions by. *)
Record session : Set := mkSession {
  sid : nat;
  tracker_url : string;
  timeout : Z;
  is_failed : bool
}.

(** The completion signals that end up in [session_stop_defer_list]. *)
Inductive signal : Set :=
  | StopListening
  | CloseCachedConnections
  | Cleanup (s : nat).

(** A deferred: its own identity and the call that returned it. *)
Record deferred : Set := mkDeferred {
  d_id : nat;
  d_signal : signal
}.

(** The other methods the checker calls on a session. *)
Inductive call : Set :=
  | AddInfohash (s : nat) (infohash : string)
  | ConnectToTracker (s : nat).

(** A row of [mds.TorrentState]. *)
Record TorrentState : Set := mkTorrentState {
  seeders : Z;
  leechers : Z;
  last_check : Z;
  trackers : list string
}.

(** A row of [mds.TrackerState]; its [torrents] are the rows of
    [TorrentState] that list the tracker. *)
Record TrackerState : Set := mkTrackerState {
  failures : Z;
  tr_last_check : Z
}.

(** The payload of the [NTFY_TORRENT]/[NTFY_UPDATE] notification. *)
Record notification : Set := mkNotification {
  n_infohash : string;
  num_seeders : Z;
  num_leechers : Z;
  last_tracker_check : Z
}.

(** The tuple handed to [popularity_community.queue_content]. *)
Definition content : Set := (string * Z * Z * Z)%type.

Record checker : Type := mkChecker {
  (* attributes of [TorrentChecker] *)
  _should_stop : bool;
  _torrent_check_interval : Z;
  _torrent_check_retry_interval : Z;
  _max_torrent_check_retries : Z;
  _session_list : gmap string (list session);
  session_stop_defer_list : list deferred;
  udp_port : bool;
  connection_pool : bool;
  tasks : list string;
  (* [tribler_session] and the runtime *)
  clock : Q;
  fresh : nat;
  TorrentState_table : gmap string TorrentState;
  TrackerState_table : gmap string TrackerState;
  popularity_community : option (list content);
  notified : list notification;
  calls : list call
}.

(** A method: the value it returns or the exception it raises, and the
    state it leaves. *)
Definition M (A : Type) : Type := checker → res A * checker.

Global Instance M_ret : MRet M := λ A a st, (Ok a, st).
Global Instance M_bind : MBind M := λ A B k m st,
  match m st with
  | (Ok a, st') => k a st'
  | (Raise e, st') => (Raise e, st')
  end.

Definition raise {A} (e : exn) : M A := λ st, (Raise e, st).
Definition get : M checker := λ st, (Ok st, st).
Definition modify (f : checker → checker) : M unit := λ st, (Ok tt, f st).

(** A [for] loop over [l] that collects what each round yields. *)
Fixpoint for_M {A B} (body : A → M B) (l : list A) : M (list B) :=
  match l with
  | [] => mret []
  | x :: l' => b ← body x; bs ← for_M body l'; mret (b :: bs)
  end.

(** Field updates. *)
Definition set_should_stop (b : bool) (st : checker) : checker :=
  mkChecker b (_torrent_check_interval st) (_torrent_check_retry_interval st)
    (_max_torrent_check_retries st) (_session_list st)
    (session_stop_defer_list st) (udp_port st) (connection_pool st) (tasks st)
    (clock st) (fresh st) (TorrentState_table st) (TrackerState_table st)
    (popularity_community st) (notified st) (calls st).

Definition set_session_list (m : gmap string (list session)) (st : checker)
  : checker :=
  mkChecker (_should_stop st) (_torrent_check_interval st)
    (_torrent_check_retry_interval st) (_max_torrent_check_retries st) m
    (session_stop_defer_list st) (udp_port st) (connection_pool st) (tasks st)
    (clock st) (fresh st) (TorrentState_table st) (TrackerState_table st)
    (popularity_community st) (notified st) (calls st).

Definition set_defer_list (l : list deferred) (st : checker) : checker :=
  mkChecker (_should_stop st) (_torrent_check_interval st)
    (_torrent_check_retry_interval st) (_max_torrent_check_retries st)
    (_session_list st) l (udp_port st) (connection_pool st) (tasks st)
    (clock st) (fresh st) (TorrentState_table st) (TrackerState_table st)
    (popularity_community st) (notified st) (calls st).

Definition set_udp_port (b : bool) (st : checker) : checker :=
  mkChecker (_should_stop st) (_torrent_check_interval st)
    (_torrent_check_retry_interval st) (_max_torrent_check_retries st)
    (_session_list st) (session_stop_defer_list st) b (connection_pool st)
    (tasks st) (clock st) (fresh st) (TorrentState_table st)
    (TrackerState_table st) (popularity_community st) (notified st) (calls st).

Definition set_connection_pool (b : bool) (st : checker) : checker :=
  mkChecker (_should_stop st) (_torrent_check_interval st)
    (_torrent_check_retry_interval st) (_max_torrent_check_retries st)
    (_session_list st) (session_stop_defer_list st) (udp_port st) b
    (tasks st) (clock st) (fresh st) (TorrentState_table st)
    (TrackerState_table st) (popularity_community st) (notified st) (calls st).

Definition set_tasks (l : list string) (st : checker) : checker :=
  mkChecker (_should_stop st) (_torrent_check_interval st)
    (_torrent_check_retry_interval st) (_max_torrent_check_retries st)
    (_session_list st) (session_stop_defer_list st) (udp_port st)
    (connection_pool st) l (clock st) (fresh st) (TorrentState_table st)
    (TrackerState_table st) (popularity_community st) (notified st) (calls st).

Definition set_fresh (n : nat) (st : checker) : checker :=
  mkChecker (_should_stop st) (_torrent_check_interval st)
    (_torrent_check_retry_interval st) (_max_torrent_check_retries st)
    (_session_list st) (session_stop_defer_list st) (udp_port st)
    (connection_pool st) (tasks st) (clock st) n (TorrentState_table st)
    (TrackerState_table st) (popularity_community st) (notified st) (calls st).

Definition set_TorrentState_table (m : gmap string TorrentState)
  (st : checker) : checker :=
  mkChecker (_should_stop st) (_torrent_check_interval st)
    (_torrent_check_retry_interval st) (_max_torrent_check_retries st)
    (_session_list st) (session_stop_defer_list st) (udp_port st)
    (connection_pool st) (tasks st) (clock st) (fresh st) m
    (TrackerState_table st) (popularity_community st) (notified st) (calls st).

Definition set_TrackerState_table (m : gmap string TrackerState)
  (st : checker) : checker :=
  mkChecker (_should_stop st) (_torrent_check_interval st)
    (_torrent_check_retry_interval st) (_max_torrent_check_retries st)
    (_session_list st) (session_stop_defer_list st) (udp_port st)
    (connection_pool st) (tasks st) (clock st) (fresh st)
    (TorrentState_table st) m (popularity_community st) (notified st)
    (calls st).

Definition set_popularity_community (q : option (list content))
  (st : checker) : checker :=
  mkChecker (_should_stop st) (_torrent_check_interval st)
    (_torrent_check_retry_interval st) (_max_torrent_check_retries st)
    (_session_list st) (session_stop_defer_list st) (udp_port st)
    (connection_pool st) (tasks st) (clock st) (fresh st)
    (TorrentState_table st) (TrackerState_table st) q (notified st)
    (calls st).

Definition set_notified (l : list notification) (st : checker) : checker :=
  mkChecker (_should_stop st) (_torrent_check_interval st)
    (_torrent_check_retry_interval st) (_max_torrent_check_retries st)
    (_session_list st) (session_stop_defer_list st) (udp_port st)
    (connection_pool st) (tasks st) (clock st) (fresh st)
    (TorrentState_table st) (TrackerState_table st) (popularity_community st)
    l (calls st).

Definition set_calls (l : list call) (st : checker) : checker :=
  mkChecker (_should_stop st) (_torrent_check_interval st)
    (_torrent_check_retry_interval st) (_max_torrent_check_retries st)
    (_session_list st) (session_stop_defer_list st) (udp_port st)
    (connection_pool st) (tasks st) (clock st) (fresh st)
    (TorrentState_table st) (TrackerState_table st) (popularity_community st)
    (notified st) l.

(** [TorrentChecker.__init__] (lines 33-51), for a given [tribler_session]:
    the clock, the two tables and the popularity community are the
    session's, everything else starts as the constructor sets it. *)
Definition TorrentChecker_init (now : Q) (ts : gmap string TorrentState)
  (tr : gmap string TrackerState) (pop : option (list content)) : checker :=
  {| _should_stop := false;
     _torrent_check_interval := DEFAULT_TORRENT_CHECK_INTERVAL;
     _torrent_check_retry_interval := DEFAULT_TORRENT_CHECK_RETRY_INTERVAL;
     _max_torrent_check_retries := DEFAULT_MAX_TORRENT_CHECK_RETRIES;
     _session_list := {["DHT" := []]};
     session_stop_defer_list := [];
     udp_port := false;
     connection_pool := false;
     tasks := [];
     clock := now;
     fresh := 0%nat;
     TorrentState_table := ts;
     TrackerState_table := tr;
     popularity_community := pop;
     notified := [];
     calls := [] |}.

(** ** Collaborators *)

(** Modelled from the spec: [tracker_manager.update_tracker_info], which
    lives in Tribler's tracker manager and not in this file.  The spec's
    [recordTrackerCheckOutcome(identity, success)]: "success clears
    failureCount, reportable failure increments it"; the record's
    [lastCheckedAt] is the time of the call.  An identity the store does not
    know is left alone. *)
Definition update_tracker_info (url : string) (is_successful : bool)
  : M unit :=
  modify (λ st,
    set_TrackerState_table
      (alter (λ t, {| failures := if is_successful then 0 else failures t + 1;
                      tr_last_check := py_int (clock st) |})
             url (TrackerState_table st)) st).

(** Allocation of a fresh object identity. *)
Definition new_id : M nat :=
  λ st, (Ok (fresh st), set_fresh (S (fresh st)) st).

(** [session.cleanup()]: returns the deferred that fires once the session
    has released its resources.  What the session does to its own probe
    meanwhile is the session's business ([session.py]). *)
Definition cleanup (s : session) : M deferred :=
  i ← new_id; mret (mkDeferred i (Cleanup (sid s))).

(** [session.add_infohash] and [session.connect_to_tracker]: the calls are
    recorded, the conversation itself is the session's. *)
Definition add_infohash (s : session) (infohash : string) : M unit :=
  modify (λ st, set_calls (calls st ++ [AddInfohash (sid s) infohash]) st).

Definition connect_to_tracker (s : session) : M unit :=
  modify (λ st, set_calls (calls st ++ [ConnectToTracker (sid s)]) st).

(** [TaskManager.register_task]: the task is pending under its name. *)
Definition register_task (name : string) : M unit :=
  modify (λ st, set_tasks (tasks st ++ [name]) st).

(** Lines 62-71; [socket_error] tells whether [reactor.listenUDP] raises
    [socket.error] this time. *)
Definition create_socket_or_schedule (socket_error : bool) : M unit :=
  if socket_error then register_task "listen_udp_port"
  else modify (set_udp_port true).

(** Lines 53-57; [_reschedule_tracker_select] (lines 99-104) registers the
    selection task. *)
Definition initialize (socket_error : bool) : M unit :=
  register_task "torrent_checker_tracker_selection";;
  modify (set_connection_pool true);;
  create_socket_or_schedule socket_error.

(** [binascii.hexlify]. *)
Definition hex_digit (n : N) : ascii :=
  match n with
  | 0%N => "0" | 1%N => "1" | 2%N => "2" | 3%N => "3" | 4%N => "4"
  | 5%N => "5" | 6%N => "6" | 7%N => "7" | 8%N => "8" | 9%N => "9"
  | 10%N => "a" | 11%N => "b" | 12%N => "c" | 13%N => "d" | 14%N => "e"
  | _ => "f"
  end%char.

Fixpoint hexlify (s : string) : string :=
  match s with
  | EmptyString => EmptyString
  | String c s' =>
      String (hex_digit (N.div (N_of_ascii c) 16))
        (String (hex_digit (N.modulo (N_of_ascii c) 16)) (hexlify s'))
  end.

(** ** Tracker selection: the torrents due on a tracker, lines 123-131 of
       [_task_select_tracker] *)

(** Line 129.  [2 ** failures] is an integer for a count that is not
    negative and a fraction, [1 / 2 ** -failures], for one that is; the
    float that Python computes in that case is taken as the exact
    fraction. *)
Definition dynamic_interval (retry_interval failures : Z) : Q :=
  (inject_Z retry_interval * 2 ^ failures)%Q.

(** Line 130: the test that puts a torrent on the list. *)
Definition due_for_recheck (retry_interval last_check failures now : Z)
  : bool :=
  Qltb (inject_Z last_check + dynamic_interval retry_interval failures)
       (inject_Z now).

(** [tracker.torrents]: the rows of [TorrentState] related to the tracker. *)
Definition tracker_torrents (url : string) (st : checker)
  : list (string * TorrentState) :=
  filter (λ p, url ∈ trackers p.2) (map_to_list (TorrentState_table st)).

Definition select_infohashes (tracker_url : string) (st : checker)
  : list string :=
  match TrackerState_table st !! tracker_url with
  | Some tracker =>
      (filter (λ p, due_for_recheck (_torrent_check_retry_interval st)
                      (last_check p.2) (failures tracker)
                      (py_int (clock st)) = true)
              (tracker_torrents tracker_url st)).*1
  | None => []
  end.

(** ** The session registry *)

(** [list.remove(session)]: drops the first occurrence, [None] stands for
    the [ValueError] raised when there is none. *)
Fixpoint list_remove (s : session) (l : list session)
  : option (list session) :=
  match l with
  | [] => None
  | x :: l' =>
      if decide (sid x = sid s) then Some l'
      else cons x <$> list_remove s l'
  end.

(** Lines 290-297. *)
Definition clean_session (s : session) : M unit :=
  update_tracker_info (tracker_url s) (negb (is_failed s));;
  d ← cleanup s;
  modify (λ st, set_defer_list (session_stop_defer_list st ++ [d]) st);;
  st ← get;
  match _session_list st !! tracker_url s with
  | None => raise KeyError
  | Some l =>
      match list_remove s l with
      | None => raise ValueError
      | Some l' =>
          modify (set_session_list (<[tracker_url s := l']> (_session_list st)));;
          if bool_decide (length l' = 0%nat)
             && negb (String.eqb (tracker_url s) "DHT")
          then modify (λ st', set_session_list
                               (delete (tracker_url s) (_session_list st')) st')
          else mret tt
      end
  end.

(** Lines 258-278.  [failure.trap] re-raises a failure of any other class;
    [failure.check] is [None] unless the class is one of the two given. *)
Definition on_session_error (s : session) (failure : Failure) : M Failure :=
  if bool_decide (f_type failure ∈ [ValueError; CancelledError;
                                     ConnectingCancelledError; ConnectionLost;
                                     RuntimeError])
  then
    clean_session s;;
    (if bool_decide (f_type failure ∈ [CancelledError;
                                        ConnectingCancelledError])
     then mret tt
     else update_tracker_info (tracker_url s) false);;
    mret {| f_type := f_type failure; f_message := f_message failure;
            f_tracker_url := Some (tracker_url s) |}
  else raise (f_type failure).

(** Lines 299-305. *)
Definition _on_result_from_session (s : session) (result_list : response)
  : M response :=
  st ← get;
  if _should_stop st then mret RNone
  else clean_session s;; mret result_list.

(** Lines 94-95: the inner loop of [shutdown], over the sessions that
    [_session_list[tracker_url]] holds when the loop starts. *)
Definition cleanup_sessions_of (tracker_url : string) : M (list unit) :=
  st ← get;
  match _session_list st !! tracker_url with
  | None => raise KeyError
  | Some l =>
      for_M (λ s, d ← cleanup s;
                  modify (λ st, set_defer_list
                                  (session_stop_defer_list st ++ [d]) st))
            l
  end.

(** Lines 73-97.  The value is the list the returned [DeferredList] was
    built from. *)
Definition shutdown : M (list deferred) :=
  modify (set_should_stop true);;
  st ← get;
  (if udp_port st
   then i ← new_id;
        modify (λ st, set_defer_list
                        (session_stop_defer_list st
                           ++ [mkDeferred i StopListening]) st);;
        modify (set_udp_port false)
   else mret tt);;
  (if connection_pool st
   then i ← new_id;
        modify (λ st, set_defer_list
                        (session_stop_defer_list st
                           ++ [mkDeferred i CloseCachedConnections]) st)
   else mret tt);;
  modify (set_tasks []);;
  st ← get;
  for_M cleanup_sessions_of (map_to_list (_session_list st)).*1;;
  st ← get;
  mret (session_stop_defer_list st).

(** A [DeferredList] has fired once each deferred it was built from has. *)
Definition DeferredList_fired (fired : deferred → bool) (l : list deferred)
  : bool :=
  forallb fired l.

(** ** Persisting and publishing a reconciled result *)

(** Lines 307-323. *)
Definition _update_torrent_result (u : torrent_update) : M unit :=
  st ← get;
  match TorrentState_table st !! u_infohash u with
  | None => mret tt
  | Some torrent =>
      modify (set_TorrentState_table
                (<[u_infohash u :=
                     {| seeders := u_seeders u; leechers := u_leechers u;
                        last_check := u_last_check u;
                        trackers := trackers torrent |}]>
                   (TorrentState_table st)))
  end.

(** Lines 325-333. *)
Definition publish_torrent_result (u : torrent_update) : M unit :=
  if u_seeders u =? 0 then mret tt
  else
    st ← get;
    match popularity_community st with
    | Some queue =>
        modify (set_popularity_community
                  (Some (queue ++ [(u_infohash u, u_seeders u, u_leechers u,
                                    u_last_check u)])))
    | None => mret tt
    end.

(** Lines 181-211. *)
Definition on_gui_request_completed (infohash : string)
  (result : list outcome) : M (gmap string entry) :=
  st ← get;
  match reconcile infohash (clock st) result with
  | Raise e => raise e
  | Ok (final_response, torrent_update_dict) =>
      _update_torrent_result torrent_update_dict;;
      publish_torrent_result torrent_update_dict;;
      modify (λ st, set_notified
                (notified st ++
                   [{| n_infohash := infohash;
                       num_seeders := u_seeders torrent_update_dict;
                       num_leechers := u_leechers torrent_update_dict;
                       last_tracker_check :=
                         u_last_check torrent_update_dict |}]) st);;
      mret final_response
  end.

(** ** On-demand checks *)

(** What [add_gui_request] returns: [succeed({"db": ...})], already fired,
    or the [DeferredList] over the participants' probes, whose callback is
    [on_gui_request_completed]. *)
Inductive gui_reply : Set :=
  | Succeed (db : health)
  | Joined (participants : list nat).

Section Requests.

(** Not part of this file: whether [create_tracker_session] can parse the
    tracker URL (it raises [MalformedTrackerURLException] otherwise), and
    [Utilities.is_valid_url]; and not fixed by the language: the order in
    which Python iterates the set built from a list of URLs. *)
Variable parses : string → bool.
Variable is_valid_url : string → bool.
Variable set_order : list string → list string.

(** Lines 280-288. *)
Definition _create_session_for_request (url : string) (tmo : Z)
  : M session :=
  if parses url then
    i ← new_id;
    let s := {| sid := i; tracker_url := url; timeout := tmo;
                is_failed := false |} in
    st ← get;
    let l := default [] (_session_list st !! url) in
    modify (set_session_list (<[url := l ++ [s]]> (_session_list st)));;
    mret s
  else raise MalformedTrackerURLException.

(** Lines 175-179; the set is given as its elements in the order in which
    it is iterated. *)
Definition get_valid_trackers_of_torrent (torrent_id : string)
  : M (list string) :=
  st ← get;
  match TorrentState_table st !! torrent_id with
  | None => raise AttributeError
  | Some t => mret (set_order (filter (λ u, is_valid_url u = true)
                                      (trackers t)))
  end.

(** Lines 242-256: the fan-out over [tracker_set] and the DHT. *)
Definition fan_out (infohash : string) (tmo : Z)
  (tracker_set : list string) : M gui_reply :=
  deferred_list ←
    for_M (λ url, s ← _create_session_for_request url tmo;
                  add_infohash s infohash;;
                  connect_to_tracker s;;
                  mret (sid s))
          tracker_set;
  i ← new_id;
  let s := {| sid := i; tracker_url := "DHT"; timeout := tmo;
              is_failed := false |} in
  st ← get;
  match _session_list st !! "DHT" with
  | None => raise KeyError
  | Some l =>
      modify (set_session_list (<["DHT" := l ++ [s]]> (_session_list st)));;
      connect_to_tracker s;;
      mret (Joined (deferred_list ++ [sid s]))
  end.

(** Lines 213-256. *)
Definition add_gui_request (infohash : string) (tmo : Z)
  (scrape_now : bool) : M gui_reply :=
  st ← get;
  match TorrentState_table st !! infohash with
  | Some result =>
      let time_diff := (clock st - inject_Z (last_check result))%Q in
      if Qltb time_diff (inject_Z (_torrent_check_interval st))
         && negb scrape_now
      then mret (Succeed {| h_seeders := seeders result;
                            h_leechers := leechers result;
                            h_infohash := hexlify infohash |})
      else
        tracker_set ← get_valid_trackers_of_torrent infohash;
        fan_out infohash tmo tracker_set
  | None => fan_out infohash tmo []
  end.

End Requests.

(** ** The periodic selection *)

(** Modelled from the spec: [tracker_manager.remove_tracker], which lives in
    Tribler's tracker manager and not in this file.  The spec's
    [removeTracker(identity)]: the tracker leaves the store. *)
Definition remove_tracker (url : string) : M unit :=
  modify (λ st, set_TrackerState_table
                  (delete url (TrackerState_table st)) st).

(** Lines 99-104. *)
Definition _reschedule_tracker_select : M unit :=
  register_task "torrent_checker_tracker_selection".

(** What [_task_select_tracker] returns: [succeed(None)], or nothing (it
    falls off its end), or the deferred of the probe of the session it
    made. *)
Inductive select_reply : Set :=
  | SucceedNone
  | ReturnNone
  | Probe (s : session).

Section Selection.

(** Not part of this file: [create_tracker_session]'s parsing and
    [Utilities.is_valid_url] as before, and the tracker manager's choice of
    the next tracker, a function of its store. *)
Variable parses : string → bool.
Variable is_valid_url : string → bool.
Variable next_tracker : gmap string TrackerState → option string.

(** Lines 166-167. *)
Definition get_next_tracker_for_auto_check : M (option string) :=
  st ← get; mret (next_tracker (TrackerState_table st)).

(** The [while] loop of lines 161-163, entered with [tracker_url]; [None]
    when it is still running after [fuel] rounds.  Python takes both [None]
    and the empty string for false. *)
Fixpoint purge_invalid (fuel : nat) (tracker_url : option string)
  : M (option (option string)) :=
  match tracker_url with
  | Some url =>
      if negb (String.eqb url "") && negb (is_valid_url url) then
        match fuel with
        | O => mret None
        | S fuel' =>
            remove_tracker url;;
            tracker_url ← get_next_tracker_for_auto_check;
            purge_invalid fuel' tracker_url
        end
      else mret (Some (Some url))
  | None => mret (Some None)
  end.

(** Lines 159-164. *)
Definition get_valid_next_tracker_for_auto_check (fuel : nat)
  : M (option (option string)) :=
  tracker_url ← get_next_tracker_for_auto_check;
  purge_invalid fuel tracker_url.

(** Lines 139-152: the probe of the due torrents on a tracker. *)
Definition probe_tracker (tracker_url : string) (infohashes : list string)
  : M select_reply :=
  λ st,
    match _create_session_for_request parses tracker_url 30 st with
    | (Ok s, st') =>
        (for_M (add_infohash s) infohashes;;
         connect_to_tracker s;;
         mret (Probe s)) st'
    | (Raise MalformedTrackerURLException, st') =>
        (remove_tracker tracker_url;; mret SucceedNone) st'
    | (Raise e, st') => (Raise e, st')
    end.

(** Lines 106-152. *)
Definition _task_select_tracker (fuel : nat) : M (option select_reply) :=
  _reschedule_tracker_select;;
  r ← get_valid_next_tracker_for_auto_check fuel;
  match r with
  | None => mret None
  | Some None => mret (Some SucceedNone)
  | Some (Some tracker_url) =>
      st ← get;
      let infohashes := select_infohashes tracker_url st in
      if bool_decide (length infohashes = 0%nat) then
        update_tracker_info tracker_url true;;
        mret (Some SucceedNone)
      else if negb (String.eqb tracker_url "DHT")
              && negb (String.eqb tracker_url "no-DHT") then
        reply ← probe_tracker tracker_url infohashes;
        mret (Some reply)
      else mret (Some ReturnNone)
  end.

End Selection.

(** ** Vocabulary of the properties *)

(** How the loop body of [on_gui_request_completed] reads one outcome:
    [Some None] is a failure it records and skips, [Some (Some (s, l))] a
    sample it compares, [None] an outcome on which the body raises. *)
Definition sample (o : outcome) : option (option (Z * Z)) :=
  match o with
  | (false, RFailure f) =>
      match f_tracker_url f with Some _ => Some None | None => None end
  | (_, RDict ((_, h :: _) :: _)) => Some (Some (h_seeders h, h_leechers h))
  | _ => None
  end.

Definition well_formed (o : outcome) : Prop := is_Some (sample o).

Global Instance well_formed_dec o : Decision (well_formed o).
Proof. unfold well_formed. apply _. Defined.

(** The outcome is a failure: [not success and isinstance(response,
    Failure)]. *)
Definition failed (o : outcome) : Prop :=
  match o with
  | (false, RFailure _) => True
  | _ => False
  end.

Global Instance failed_dec o : Decision (failed o).
Proof. destruct o as [[] []]; simpl; apply _. Defined.


(** The [(seeders, leechers)] pairs of the successful outcomes. *)
Definition successes (result : list outcome) : list (Z * Z) :=
  omap (λ o, mjoin (sample o)) result.

(** More seeders, or as many seeders and at least as many leechers. *)
Definition lex_le (p q : Z * Z) : Prop :=
  p.1 < q.1 ∨ (p.1 = q.1 ∧ p.2 ≤ q.2).

(** [p] is in [l] and nothing in [l] beats it. *)
Definition is_lex_max (p : Z * Z) (l : list (Z * Z)) : Prop :=
  p ∈ l ∧ ∀ q, q ∈ l → lex_le q p.

(** *** Backoff *)

(** The recheck rule in the words of the specification:
    [now - lastCheckedAt ≥ baseRetryInterval * 2^min(failureCount,
    maxRetries)]. *)
Definition dueForRecheck_spec (baseRetryInterval maxRetries : Z)
  (lastCheckedAt failureCount now : Z) : bool :=
  baseRetryInterval * 2 ^ Z.min failureCount maxRetries
  <=? now - lastCheckedAt.

(** *** The registry *)

(** The invariant of the session registry: ["DHT"] is always a key, and no
    other key maps to an empty list. *)
Definition registry_inv (m : gmap string (list session)) : Prop :=
  is_Some (m !! "DHT")
  ∧ ∀ url l, m !! url = Some l → url ≠ "DHT" → l ≠ [].

(** Sessions are distinct objects, all allocated already. *)
Definition sessions_distinct (st : checker) : Prop :=
  ∀ url l, _session_list st !! url = Some l →
    NoDup (sid <$> l) ∧ ∀ s, s ∈ l → (sid s < fresh st)%nat.

(** The number of sessions registered under an identity. *)
Definition session_count (url : string) (st : checker) : nat :=
  length (default [] (_session_list st !! url)).

(** What [clean_session] has done by the time it reaches the registry:
    the tracker outcome recorded and the session's cleanup collected. *)
Definition retiring (s : session) (st : checker) : checker :=
  set_defer_list
    (session_stop_defer_list st ++ [mkDeferred (fresh st) (Cleanup (sid s))])
    (set_fresh (S (fresh st))
       (set_TrackerState_table
          (alter (λ t, {| failures := if negb (is_failed s) then 0
                                      else failures t + 1;
                          tr_last_check := py_int (clock st) |})
                 (tracker_url s) (TrackerState_table st)) st)).

(** Both registry properties together. *)
Definition registry_ok (st : checker) : Prop :=
  registry_inv (_session_list st) ∧ sessions_distinct st.

(** A method keeps a property of the state, whether it returns or
    raises. *)
Definition preserves {A} (P : checker → Prop) (m : M A) : Prop :=
  ∀ st, P st → P (m st).2.

(** *** Runs of the checker *)

(** What the rest of Tribler does between two calls: time passes, and the
    tables and the popularity community change hands. *)
Definition world_moves (now : Q) (ts : gmap string TorrentState)
  (tr : gmap string TrackerState) (pop : option (list content))
  (st : checker) : checker :=
  mkChecker (_should_stop st) (_torrent_check_interval st)
    (_torrent_check_retry_interval st) (_max_torrent_check_retries st)
    (_session_list st) (session_stop_defer_list st) (udp_port st)
    (connection_pool st) (tasks st) now (fresh st) ts tr pop (notified st)
    (calls st).

Section Runs.

Variable parses : string → bool.
Variable is_valid_url : string → bool.
Variable set_order : list string → list string.

(** The entry points: the public API, the session callbacks, and the
    registry operations they are built from. *)
Inductive op : Type :=
  | Op_initialize (socket_error : bool)
  | Op_create_session_for_request (url : string) (tmo : Z)
  | Op_add_gui_request (infohash : string) (tmo : Z) (scrape_now : bool)
  | Op_on_gui_request_completed (infohash : string) (result : list outcome)
  | Op_on_result_from_session (s : session) (result_list : response)
  | Op_on_session_error (s : session) (failure : Failure)
  | Op_clean_session (s : session)
  | Op_shutdown.

(** The state an entry point leaves, whether it returned or raised. *)
Definition run (o : op) (st : checker) : checker :=
  match o with
  | Op_initialize socket_error => (initialize socket_error st).2
  | Op_create_session_for_request url tmo =>
      (_create_session_for_request parses url tmo st).2
  | Op_add_gui_request infohash tmo scrape_now =>
      (add_gui_request parses is_valid_url set_order infohash tmo scrape_now
         st).2
  | Op_on_gui_request_completed infohash result =>
      (on_gui_request_completed infohash result st).2
  | Op_on_result_from_session s result_list =>
      (_on_result_from_session s result_list st).2
  | Op_on_session_error s failure => (on_session_error s failure st).2
  | Op_clean_session s => (clean_session s st).2
  | Op_shutdown => (shutdown st).2
  end.

(** The states a checker can be in. *)
Inductive reachable : checker → Prop :=
  | reachable_init now ts tr pop :
      reachable (TorrentChecker_init now ts tr pop)
  | reachable_run o st :
      reachable st → reachable (run o st)
  | reachable_world now ts tr pop st :
      reachable st → reachable (world_moves now ts tr pop st).

End Runs.

(** *** Shutdown *)

(** The deferreds of the cleanups of the sessions [l], allocated from
    identity [n] on. *)
Fixpoint cleanups (n : nat) (l : list session) : list deferred :=
  match l with
  | [] => []
  | s :: l' => mkDeferred n (Cleanup (sid s)) :: cleanups (S n) l'
  end.

Fixpoint all_cleanups (n : nat) (ls : list (list session)) : list deferred :=
  match ls with
  | [] => []
  | l :: ls' => cleanups n l ++ all_cleanups (n + length l) ls'
  end.

(** The checker after the first half of [shutdown] (lines 80-89): flag
    set, listener and pool asked to stop, tasks cancelled. *)
Definition stopping (st : checker) : checker :=
  let st1 := set_should_stop true st in
  let st2 :=
    if udp_port st1
    then set_udp_port false
           (set_defer_list (session_stop_defer_list st1
                              ++ [mkDeferred (fresh st1) StopListening])
              (set_fresh (S (fresh st1)) st1))
    else st1 in
  let st3 :=
    if connection_pool st1
    then set_defer_list (session_stop_defer_list st2
                           ++ [mkDeferred (fresh st2) CloseCachedConnections])
           (set_fresh (S (fresh st2)) st2)
    else st2 in
  set_tasks [] st3.

(** *** More vocabulary *)

(** The key and the entry that the loop of [on_gui_request_completed]
    writes to [final_response] for an outcome. *)
Definition final_entry (o : outcome) : option (string * entry) :=
  match o with
  | (false, RFailure f) =>
      match f_tracker_url f with
      | Some url => Some (url, EError (f_message f))
      | None => None
      end
  | (_, RDict ((key, h :: _) :: _)) => Some (key, EHealth h)
  | _ => None
  end.

(** The calls that the fan-out makes on the sessions of the trackers
    [urls], the first of which has identity [n]. *)
Fixpoint probe_calls (n : nat) (infohash : string) (urls : list string)
  : list call :=
  match urls with
  | [] => []
  | _ :: urls' =>
      AddInfohash n infohash :: ConnectToTracker n
        :: probe_calls (S n) infohash urls'
  end.

(** The registry after sessions with identities from [n] on were
    registered for [urls], one after the other. *)
Fixpoint registered (n : nat) (tmo : Z) (urls : list string)
  (m : gmap string (list session)) : gmap string (list session) :=
  match urls with
  | [] => m
  | url :: urls' =>
      registered (S n) tmo urls'
        (<[url := default [] (m !! url)
                  ++ [{| sid := n; tracker_url := url; timeout := tmo;
                         is_failed := false |}]]> m)
  end.

(** The number of sessions in the registry. *)
Definition registered_sessions (st : checker) : nat :=
  sum_list (length <$> (map_to_list (_session_list st)).*2).

(** The test of line 229 of [add_gui_request]: the torrent has a stored
    record, checked less than [_torrent_check_interval] ago, and the check
    is not forced. *)
Definition short_circuits (infohash : string) (scrape_now : bool)
  (st : checker) : bool :=
  match TorrentState_table st !! infohash with
  | Some result =>
      Qltb (clock st - inject_Z (last_check result))
           (inject_Z (_torrent_check_interval st))
      && negb scrape_now
  | None => false
  end.

(** The [tracker_set] that [add_gui_request] fans out to. *)
Definition tracker_set_of (is_valid_url : string → bool)
  (set_order : list string → list string) (infohash : string)
  (st : checker) : list string :=
  match TorrentState_table st !! infohash with
  | Some result =>
      set_order (filter (λ u, is_valid_url u = true) (trackers result))
  | None => []
  end.

(** What every iteration order of sets has in common: each element of the
    list the set was built from comes once. *)
Definition iterates_sets (set_order : list string → list string) : Prop :=
  ∀ l, NoDup (set_order l) ∧ ∀ u, u ∈ set_order l ↔ u ∈ l.

(** An iteration order for the examples: against the order of the list. *)
Definition backwards (l : list string) : list string :=
  reverse (remove_dups l).

(** The checker once [_task_select_tracker] has rescheduled itself. *)
Definition rescheduled (st : checker) : checker :=
  set_tasks (tasks st ++ ["torrent_checker_tracker_selection"]) st.

(** The tracker manager only proposes trackers of its store. *)
Definition proposes_known (next_tracker : gmap string TrackerState
                                           → option string) : Prop :=
  ∀ m url, next_tracker m = Some url → is_Some (m !! url).

(** A tracker manager for the examples: the first tracker of the store. *)
Definition first_tracker (m : gmap string TrackerState) : option string :=
  fst <$> head (map_to_list m).

(** *** Examples *)

(** A checker that knows one torrent and its tracker, which failed three
    times, at a time when the torrent was checked 100 seconds ago. *)
Definition example_checker : checker :=
  TorrentChecker_init 1000
    {["ih" := {| seeders := 4; leechers := 7; last_check := 900;
                 trackers := ["http://tracker/announce"] |}]}
    {["http://tracker/announce" := {| failures := 3; tr_last_check := 0 |}]}
    (Some []).

(** The join of one failed participant and two that report [(5, 2)] and
    [(5, 9)]. *)
Definition example_outcomes : list outcome :=
  [(false, RFailure (mkFailure ValueError "timeout" (Some "udp://a")));
   (true, RDict [("http://b", [mkHealth 5 2 "ih"])]);
   (true, RDict [("DHT", [mkHealth 5 9 "ih"])])].

(** A checker that knows a torrent with two trackers. *)
Definition example_two_trackers : checker :=
  TorrentChecker_init 5000
    {["ih" := {| seeders := 0; leechers := 0; last_check := 0;
                 trackers := ["udp://a:80"; "udp://b"] |}]}
    ∅ None.

(** A checker whose tracker store holds two trackers, with a torrent that
    lists both and was checked long ago. *)
Definition example_selection : checker :=
  TorrentChecker_init 5000
    {["ih" := {| seeders := 0; leechers := 0; last_check := 0;
                 trackers := ["udp://a:80"; "bad"] |}]}
    {["udp://a:80" := {| failures := 2; tr_last_check := 0 |};
      "bad" := {| failures := 0; tr_last_check := 0 |}]}
    None.

(** A checker whose tracker store holds the ["DHT"] pseudo-tracker, with a
    torrent due on it. *)
Definition example_dht : checker :=
  TorrentChecker_init 5000
    {["ih" := {| seeders := 0; leechers := 0; last_check := 0;
                 trackers := ["DHT"] |}]}
    {["DHT" := {| failures := 0; tr_last_check := 0 |}]}
    None.


(** The session that [_create_session_for_request] makes first. *)
Definition example_session : session :=
  {| sid := 0; tracker_url := "http://tracker/announce"; timeout := 20;
     is_failed := false |}.

(** The checker, initialized, with that session in flight. *)
Definition example_probing : checker :=
  run (λ _, true) (λ _, true) remove_dups
    (Op_create_session_for_request "http://tracker/announce" 20)
    (run (λ _, true) (λ _, true) remove_dups (Op_initialize false)
       example_checker).

(** ** Reconciliation picks the best sample *)

Lemma lex_le_refl p : lex_le p p.
Proof. unfold lex_le. lia. Qed.

Lemma lex_le_trans p q r : lex_le p q → lex_le q r → lex_le p r.
Proof. unfold lex_le. lia. Qed.

Lemma lex_le_antisym p q : lex_le p q → lex_le q p → p = q.
Proof.
  destruct p, q. unfold lex_le. simpl. intros H1 H2.
  f_equal; lia.
Qed.

Lemma is_lex_max_unique p q l l' :
  (∀ x, x ∈ l ↔ x ∈ l') → is_lex_max p l → is_lex_max q l' → p = q.
Proof.
  intros Hm [Hp Hpmax] [Hq Hqmax].
  apply lex_le_antisym.
  - apply Hqmax, Hm, Hp.
  - apply Hpmax, Hm, Hq.
Qed.

Lemma improves_spec s l u :
  improves s l u = true ↔ ¬ lex_le (s, l) (u_seeders u, u_leechers u).
Proof.
  unfold improves, lex_le. simpl.
  rewrite orb_true_iff, andb_true_iff, !Z.ltb_lt, Z.eqb_eq. lia.
Qed.

(** One round of the loop: an exception exactly on an outcome that is not
    well formed; otherwise the update dict holds the better of what it held
    and the round's sample, its other two keys untouched. *)
Lemma gui_body_sample fr u o :
  match sample o with
  | None => ∃ e, gui_body (fr, u) o = Raise e
  | Some None => ∃ fr', gui_body (fr, u) o = Ok (fr', u)
  | Some (Some (s, l)) =>
      ∃ fr' u', gui_body (fr, u) o = Ok (fr', u')
        ∧ u_infohash u' = u_infohash u ∧ u_last_check u' = u_last_check u
        ∧ ((lex_le (s, l) (u_seeders u, u_leechers u) ∧ u' = u)
           ∨ (¬ lex_le (s, l) (u_seeders u, u_leechers u)
              ∧ u_seeders u' = s ∧ u_leechers u' = l))
  end.
Proof.
  destruct o as [success [f|d|]]; simpl.
  - destruct success; simpl; [eauto|].
    destruct (f_tracker_url f); simpl; eauto.
  - assert (Hd : ∀ b : bool,
      (if b then sample (true, RDict d) else sample (true, RDict d))
      = sample (success, RDict d)) by (destruct success, b; reflexivity).
    destruct d as [|[key [|h hs]] d]; destruct success; simpl; eauto.
    all: destruct (improves (h_seeders h) (h_leechers h) u) eqn:Hi;
      do 2 eexists; (split; [reflexivity|]); simpl; (split; [done|]);
      (split; [done|]).
    all: first [ apply improves_spec in Hi; right; done
               | left; split; [|done];
                 destruct (decide (lex_le (h_seeders h, h_leechers h)
                                          (u_seeders u, u_leechers u)))
                   as [|Hn]; [done|];
                 apply improves_spec in Hn; congruence ].
  - destruct success; eauto.
Qed.

Lemma successes_cons o result :
  successes (o :: result)
  = match sample o with
    | Some (Some p) => p :: successes result
    | _ => successes result
    end.
Proof. unfold successes. simpl. by destruct (sample o) as [[]|]. Qed.

(** The whole loop over well-formed outcomes: it returns, and the update
    dict holds the best of its initial pair and the samples. *)
Lemma for_res_gui_body l : ∀ fr u,
  Forall well_formed l →
  ∃ fr' u', for_res gui_body l (fr, u) = Ok (fr', u')
    ∧ u_infohash u' = u_infohash u ∧ u_last_check u' = u_last_check u
    ∧ is_lex_max (u_seeders u', u_leechers u')
                 ((u_seeders u, u_leechers u) :: successes l).
Proof.
  induction l as [|o l IH]; intros fr u Hwf.
  - exists fr, u. repeat split; [left | ].
    intros q Hq. apply list_elem_of_singleton in Hq as ->. apply lex_le_refl.
  - apply Forall_cons in Hwf as [Ho Hl].
    pose proof (gui_body_sample fr u o) as Hb.
    destruct Ho as [so Hso]. rewrite successes_cons, Hso in *.
    cbn [for_res].
    destruct so as [[s lc]|].
    + destruct Hb as (fr1 & u1 & -> & Hih & Hlc & Hcase). simpl.
      destruct (IH fr1 u1 Hl) as (fr' & u' & -> & Hih' & Hlc' & Hin & Hmax).
      exists fr', u'. split; [done|]. split; [congruence|].
      split; [congruence|].
      destruct Hcase as [[Hle ->]|(Hnle & Hs & Hc)].
      * split.
        -- apply elem_of_cons in Hin as [->|Hin]; [left|do 2 right; done].
        -- intros q Hq. apply elem_of_cons in Hq as [->|Hq].
           ++ apply Hmax. left.
           ++ apply elem_of_cons in Hq as [->|Hq].
              ** eapply lex_le_trans; [exact Hle|]. apply Hmax. left.
              ** apply Hmax. right. done.
      * rewrite Hs, Hc in *. split.
        -- apply elem_of_cons in Hin as [->|Hin];
             [right; left|do 2 right; done].
        -- intros q Hq. apply elem_of_cons in Hq as [->|Hq].
           ++ eapply lex_le_trans; [|apply Hmax; left].
              unfold lex_le in *. simpl in *. lia.
           ++ apply elem_of_cons in Hq as [->|Hq].
              ** apply Hmax. left.
              ** apply Hmax. right. done.
    + destruct Hb as (fr1 & ->). simpl. apply IH, Hl.
Qed.

(** ... and over a list with an outcome that is not well formed, it
    raises. *)
Lemma for_res_gui_body_raise l : ∀ fr u,
  ¬ Forall well_formed l → ∃ e, for_res gui_body l (fr, u) = Raise e.
Proof.
  induction l as [|o l IH]; intros fr u Hn.
  - destruct Hn. constructor.
  - pose proof (gui_body_sample fr u o) as Hb. cbn [for_res].
    destruct (sample o) as [so|] eqn:Hso.
    + assert (Hl : ¬ Forall well_formed l).
      { intros Hl. apply Hn. constructor; [|done]. by exists so. }
      destruct so as [[s lc]|].
      * destruct Hb as (fr1 & u1 & -> & _). simpl. apply IH, Hl.
      * destruct Hb as (fr1 & ->). simpl. apply IH, Hl.
    + destruct Hb as [e ->]. simpl. eauto.
Qed.

Lemma successes_reverse result p :
  p ∈ successes (reverse result) ↔ p ∈ successes result.
Proof.
  unfold successes. rewrite !list_elem_of_omap.
  by setoid_rewrite elem_of_reverse.
Qed.

(** [reconcile] on well-formed outcomes. *)
Lemma reconcile_returns infohash now result :
  Forall well_formed result →
  ∃ fr u, reconcile infohash now result = Ok (fr, u)
    ∧ u_infohash u = infohash ∧ u_last_check u = py_int now
    ∧ is_lex_max (u_seeders u, u_leechers u) ((0, 0) :: successes result).
Proof.
  intros Hwf. unfold reconcile.
  edestruct (for_res_gui_body (reverse result)) as
    (fr & u & -> & Hih & Hlc & Hin & Hmax);
    [by apply Forall_reverse|].
  exists fr, u. simpl in *. repeat split; [done..| |].
  - apply elem_of_cons in Hin as [->|Hin]; [left|right].
    by apply successes_reverse.
  - intros q Hq. apply Hmax.
    apply elem_of_cons in Hq as [->|Hq]; [left|right].
    by apply successes_reverse.
Qed.

Lemma reconcile_raises infohash now result :
  ¬ Forall well_formed result →
  ∃ e, reconcile infohash now result = Raise e.
Proof.
  intros Hn. apply for_res_gui_body_raise. by rewrite Forall_reverse.
Qed.

Lemma successes_no_failed result :
  successes (filter (λ o, ¬ failed o) result) = successes result.
Proof.
  induction result as [|o result IH]; [done|].
  rewrite filter_cons. destruct (decide (¬ failed o)) as [Hf|Hf].
  - by rewrite !successes_cons, IH.
  - rewrite successes_cons, IH.
    destruct o as [[] [f| |]]; simpl in Hf; try (destruct Hf; tauto).
    simpl. by destruct (f_tracker_url f).
Qed.

Lemma torrent_update_eq u u' :
  u_infohash u = u_infohash u' → u_seeders u = u_seeders u' →
  u_leechers u = u_leechers u' → u_last_check u = u_last_check u' → u = u'.
Proof. destruct u, u'. simpl. congruence. Qed.

(** The update dict that the loop leaves, if it returns. *)
Lemma reconcile_update_perm infohash now result result' :
  result ≡ₚ result' →
  match reconcile infohash now result, reconcile infohash now result' with
  | Ok (_, u), Ok (_, u') => u = u'
  | Raise _, Raise _ => True
  | _, _ => False
  end.
Proof.
  intros Hp.
  destruct (decide (Forall well_formed result)) as [Hwf|Hwf].
  - assert (Hwf' : Forall well_formed result') by by rewrite <- Hp.
    destruct (reconcile_returns infohash now _ Hwf)
      as (fr & u & -> & Hih & Hlc & Hmax).
    destruct (reconcile_returns infohash now _ Hwf')
      as (fr' & u' & -> & Hih' & Hlc' & Hmax').
    assert (Heq : (u_seeders u, u_leechers u) = (u_seeders u', u_leechers u')).
    { eapply is_lex_max_unique; [|exact Hmax|exact Hmax'].
      intros x. unfold successes. by rewrite Hp. }
    apply torrent_update_eq; congruence.
  - assert (Hwf' : ¬ Forall well_formed result') by by rewrite <- Hp.
    destruct (reconcile_raises infohash now _ Hwf) as [e ->].
    by destruct (reconcile_raises infohash now _ Hwf') as [e' ->].
Qed.

(** C1: over any list of well-formed outcomes the reconciliation loop of
    [on_gui_request_completed] returns, and its [(seeders, leechers)] is the
    same as when the failed outcomes are left out, is beaten by no
    successful outcome (more seeders first, then more leechers), and is the
    pair of a successful outcome as soon as one of them reports counts that
    are not negative; a failure and the samples (5,2) and (5,9) reconcile to
    (5,9). *)
Theorem reconcile_max_seeders_then_leechers :
  (∀ infohash now result,
     Forall well_formed result →
     ∃ fr u, reconcile infohash now result = Ok (fr, u)
       ∧ seeders_leechers
           (reconcile infohash now (filter (λ o, ¬ failed o) result))
         = Some (u_seeders u, u_leechers u)
       ∧ (∀ p, p ∈ successes result → lex_le p (u_seeders u, u_leechers u))
       ∧ ((∃ p, p ∈ successes result ∧ 0 ≤ p.1 ∧ 0 ≤ p.2) →
          (u_seeders u, u_leechers u) ∈ successes result))
  ∧ seeders_leechers (reconcile "ih" 0 example_outcomes) = Some (5, 9).
Proof.
  split; [|reflexivity].
  intros infohash now result Hwf.
  destruct (reconcile_returns infohash now _ Hwf)
    as (fr & u & Hr & Hih & Hlc & Hin & Hmax).
  exists fr, u. split; [done|]. split; [|split].
  - assert (Hwf' : Forall well_formed (filter (λ o, ¬ failed o) result)).
    { apply Forall_forall. intros o Ho. apply list_elem_of_filter in Ho as [_ Ho].
      by eapply Forall_forall in Hwf. }
    destruct (reconcile_returns infohash now _ Hwf')
      as (fr' & u' & -> & _ & _ & Hmax').
    simpl. rewrite successes_no_failed in Hmax'.
    by rewrite (is_lex_max_unique _ _ _ _ (λ x, reflexivity _)
                  Hmax' (conj Hin Hmax)).
  - intros p Hp. apply Hmax. by right.
  - intros (p & Hp & Hs & Hl).
    apply elem_of_cons in Hin as [Heq|Hin]; [|done].
    assert (Hle : lex_le p (u_seeders u, u_leechers u))
      by (apply Hmax; by right).
    rewrite Heq in Hle |- *.
    assert (p = (0, 0)) as <-; [|done].
    destruct p. unfold lex_le in Hle. simpl in *. f_equal; lia.
Qed.

Lemma reconcile_max_seeders_then_leechers_witness :
  ∃ fr u, reconcile "ih" 0 example_outcomes = Ok (fr, u)
    ∧ seeders_leechers
        (reconcile "ih" 0 (filter (λ o, ¬ failed o) example_outcomes))
      = Some (u_seeders u, u_leechers u)
    ∧ (∀ p, p ∈ successes example_outcomes →
            lex_le p (u_seeders u, u_leechers u))
    ∧ ((∃ p, p ∈ successes example_outcomes ∧ 0 ≤ p.1 ∧ 0 ≤ p.2) →
       (u_seeders u, u_leechers u) ∈ successes example_outcomes).
Proof.
  apply (proj1 reconcile_max_seeders_then_leechers "ih" 0%Q example_outcomes).
  repeat constructor; by eexists.
Defined.

(** C7: reconciling a permutation of the outcomes gives the same
    [(seeders, leechers)] (or raises as well), and
    [on_gui_request_completed] leaves the same state behind. *)
Theorem reconcile_order_independent infohash now st result result' :
  result ≡ₚ result' →
  seeders_leechers (reconcile infohash now result)
  = seeders_leechers (reconcile infohash now result')
  ∧ (on_gui_request_completed infohash result st).2
    = (on_gui_request_completed infohash result' st).2.
Proof.
  intros Hp. split.
  - pose proof (reconcile_update_perm infohash now _ _ Hp) as H.
    destruct (reconcile infohash now result) as [[fr u]|e],
      (reconcile infohash now result') as [[fr' u']|e']; simpl; try done.
    by subst.
  - pose proof (reconcile_update_perm infohash (clock st) _ _ Hp) as H.
    unfold on_gui_request_completed, mbind, M_bind, get. simpl.
    destruct (reconcile infohash (clock st) result) as [[fr u]|e],
      (reconcile infohash (clock st) result') as [[fr' u']|e']; try done.
    subst u'.
    destruct (_update_torrent_result u st) as [[[]|e1] st1]; [|done].
    destruct (publish_torrent_result u st1) as [[[]|e2] st2]; done.
Qed.

Lemma reconcile_order_independent_witness :
  seeders_leechers (reconcile "ih" 0 example_outcomes)
  = seeders_leechers (reconcile "ih" 0 (reverse example_outcomes))
  ∧ (on_gui_request_completed "ih" example_outcomes example_checker).2
    = (on_gui_request_completed "ih" (reverse example_outcomes)
         example_checker).2.
Proof.
  apply (reconcile_order_independent "ih" 0%Q example_checker
           example_outcomes (reverse example_outcomes)).
  symmetry. apply reverse_Permutation.
Defined.

(** ** The monad *)

Lemma preserves_ret {A} P (a : A) : preserves P (mret a).
Proof. by intros st. Qed.

Lemma preserves_raise {A} P e : preserves P (raise (A:=A) e).
Proof. by intros st. Qed.

Lemma preserves_get P : preserves P get.
Proof. by intros st. Qed.

Lemma preserves_modify P f : (∀ st, P st → P (f st)) → preserves P (modify f).
Proof. intros Hf st. apply Hf. Qed.

Lemma preserves_bind {A B} P (m : M A) (k : A → M B) :
  preserves P m → (∀ a, preserves P (k a)) → preserves P (m ≫= k).
Proof.
  intros Hm Hk st HP. specialize (Hm st HP).
  unfold mbind, M_bind. destruct (m st) as [[a|e] st']; simpl in *.
  - by apply Hk.
  - done.
Qed.

Lemma preserves_for_M {A B} P (body : A → M B) l :
  (∀ x, preserves P (body x)) → preserves P (for_M body l).
Proof.
  intros Hbody. induction l as [|x l IH]; simpl.
  - apply preserves_ret.
  - apply preserves_bind; [apply Hbody|]. intros b.
    apply preserves_bind; [apply IH|]. intros bs. apply preserves_ret.
Qed.

Ltac preserves_step :=
  first [ apply preserves_ret | apply preserves_raise | apply preserves_get
        | apply preserves_bind; [|intros ?]
        | apply preserves_for_M; intros ? ].

(** ** The session registry *)

Lemma list_remove_elem s l l' x :
  list_remove s l = Some l' → x ∈ l' → x ∈ l.
Proof.
  revert l'. induction l as [|y l IH]; intros l'; simpl; [done|].
  destruct (decide (sid y = sid s)).
  - intros [= ->] Hx. by right.
  - destruct (list_remove s l) as [l1|]; simpl; [|done].
    intros [= <-] Hx. apply elem_of_cons in Hx as [->|Hx]; [left|right].
    by apply (IH l1).
Qed.

Lemma list_remove_None s l :
  list_remove s l = None ↔ sid s ∉ sid <$> l.
Proof.
  induction l as [|y l IH]; simpl.
  - split; [intros _; apply not_elem_of_nil|done].
  - rewrite not_elem_of_cons. destruct (decide (sid y = sid s)) as [He|Hne].
    + split; [done|]. intros [Hn _]. by destruct Hn.
    + destruct (list_remove s l); simpl.
      * split; [done|]. intros [_ Hn]. by apply IH in Hn.
      * split; [|done]. intros _. split; [done|]. by apply IH.
Qed.

Lemma list_remove_NoDup s l l' :
  NoDup (sid <$> l) → list_remove s l = Some l' →
  NoDup (sid <$> l') ∧ sid s ∉ sid <$> l'.
Proof.
  revert l'. induction l as [|y l IH]; intros l'; simpl; [done|].
  rewrite NoDup_cons. intros [Hy Hl].
  destruct (decide (sid y = sid s)) as [He|Hne].
  - intros [= ->]. by rewrite <- He.
  - destruct (list_remove s l) as [l1|] eqn:Hr; simpl; [|done].
    intros [= <-]. destruct (IH l1 Hl eq_refl) as [Hnd Hs].
    rewrite fmap_cons, NoDup_cons, not_elem_of_cons. repeat split; try done.
    intros Hin. apply Hy. apply list_elem_of_fmap in Hin as (x & -> & Hx).
    apply list_elem_of_fmap. exists x. split; [done|].
    by eapply list_remove_elem.
Qed.

(** [clean_session], spelled out. *)
Lemma clean_session_eq s st :
  clean_session s st =
  match _session_list st !! tracker_url s with
  | None => (Raise KeyError, retiring s st)
  | Some l =>
      match list_remove s l with
      | None => (Raise ValueError, retiring s st)
      | Some l' =>
          (Ok tt,
           set_session_list
             (if bool_decide (length l' = 0%nat)
                 && negb (String.eqb (tracker_url s) "DHT")
              then delete (tracker_url s)
                     (<[tracker_url s := l']> (_session_list st))
              else <[tracker_url s := l']> (_session_list st))
             (retiring s st))
      end
  end.
Proof.
  unfold clean_session, update_tracker_info, cleanup, new_id, modify, get,
    raise, mbind, M_bind, mret, M_ret. simpl.
  destruct (_session_list st !! tracker_url s) as [l|]; [|reflexivity].
  destruct (list_remove s l) as [l'|]; [|reflexivity].
  simpl.
  by destruct (bool_decide (length l' = 0%nat)
               && negb (String.eqb (tracker_url s) "DHT")).
Qed.

(** [_create_session_for_request], spelled out. *)
Lemma _create_session_for_request_eq parses url tmo st :
  _create_session_for_request parses url tmo st =
  if parses url then
    let s := {| sid := fresh st; tracker_url := url; timeout := tmo;
                is_failed := false |} in
    (Ok s,
     set_session_list
       (<[url := default [] (_session_list st !! url) ++ [s]]>
          (_session_list st))
       (set_fresh (S (fresh st)) st))
  else (Raise MalformedTrackerURLException, st).
Proof.
  unfold _create_session_for_request. by destruct (parses url).
Qed.

Lemma eqb_DHT url : String.eqb url "DHT" = bool_decide (url = "DHT").
Proof.
  destruct (String.eqb_spec url "DHT") as [->|Hne].
  - by rewrite bool_decide_eq_true_2.
  - by rewrite bool_decide_eq_false_2.
Qed.

(** A state with the same registry and no identity taken back is as good. *)
Lemma registry_ok_frame st st' :
  _session_list st' = _session_list st → (fresh st ≤ fresh st')%nat →
  registry_ok st → registry_ok st'.
Proof.
  intros Hm Hf [Hinv Hd]. split; [by rewrite Hm|].
  intros url l Hl. rewrite Hm in Hl. destruct (Hd url l Hl) as [Hnd Hlt].
  split; [done|]. intros s Hs. specialize (Hlt s Hs). lia.
Qed.

Lemma registry_ok_retiring s st : registry_ok st → registry_ok (retiring s st).
Proof. apply registry_ok_frame; simpl; [done|lia]. Qed.

Lemma preserves_registry_ok_modify f :
  (∀ st, _session_list (f st) = _session_list st
         ∧ (fresh st ≤ fresh (f st))%nat) →
  preserves registry_ok (modify f).
Proof.
  intros Hf. apply preserves_modify. intros st.
  destruct (Hf st). by apply registry_ok_frame.
Qed.

Lemma preserves_registry_ok_new_id : preserves registry_ok new_id.
Proof. intros st. apply registry_ok_frame; simpl; [done|lia]. Qed.

Ltac registry_frame :=
  repeat first
    [ apply preserves_registry_ok_new_id
    | apply preserves_registry_ok_modify; intros ?; simpl; split; [done|lia]
    | preserves_step ].

Lemma clean_session_registry_ok s : preserves registry_ok (clean_session s).
Proof.
  intros st Hok. rewrite clean_session_eq.
  destruct (_session_list st !! tracker_url s) as [l|] eqn:Hl;
    [|by apply registry_ok_retiring].
  destruct (list_remove s l) as [l'|] eqn:Hr;
    [|by apply registry_ok_retiring].
  destruct Hok as [[Hdht Hne] Hd]. destruct (Hd _ _ Hl) as [Hnd Hlt].
  destruct (list_remove_NoDup _ _ _ Hnd Hr) as [Hnd' _].
  rewrite eqb_DHT. simpl. split.
  - (* the invariant *)
    split.
    + destruct (decide (tracker_url s = "DHT")) as [He|Hn].
      * rewrite (bool_decide_eq_true_2 _ He), andb_false_r. simpl.
        rewrite He. rewrite lookup_insert_eq. by eexists.
      * destruct (_ && _); simpl;
          [rewrite lookup_delete_ne by done|];
          by rewrite lookup_insert_ne by done.
    + intros url l0 Hl0 Hurl.
      destruct (decide (url = tracker_url s)) as [->|Hother].
      * rewrite (bool_decide_eq_false_2 _ Hurl) in Hl0.
        rewrite andb_true_r in Hl0. simpl in Hl0.
        case_bool_decide as Hlen.
        -- by rewrite lookup_delete_eq in Hl0.
        -- rewrite lookup_insert_eq in Hl0. injection Hl0 as <-.
           by intros ->.
      * apply (Hne url l0); [|done].
        destruct (_ && _); simpl in Hl0;
          [rewrite lookup_delete_ne in Hl0 by done|];
          by rewrite lookup_insert_ne in Hl0 by done.
  - (* distinct sessions *)
    intros url l0 Hl0. simpl in *.
    destruct (decide (url = tracker_url s)) as [->|Hother].
    + assert (l0 = l') as ->.
      { destruct (_ && _); simpl in Hl0.
        - by rewrite lookup_delete_eq in Hl0.
        - rewrite lookup_insert_eq in Hl0. by injection Hl0. }
      split; [done|]. intros x Hx.
      specialize (Hlt x (list_remove_elem _ _ _ _ Hr Hx)). lia.
    + assert (_session_list st !! url = Some l0) as Hold.
      { destruct (_ && _); simpl in Hl0;
          [rewrite lookup_delete_ne in Hl0 by done|];
          by rewrite lookup_insert_ne in Hl0 by done. }
      destruct (Hd _ _ Hold) as [Hnd0 Hlt0]. split; [done|].
      intros x Hx. specialize (Hlt0 x Hx). lia.
Qed.

(** Registering a freshly allocated session under [url]. *)
Lemma registry_ok_register url s l st :
  registry_ok st → tracker_url s = url → sid s = fresh st →
  l = default [] (_session_list st !! url) →
  registry_ok (set_session_list (<[url := l ++ [s]]> (_session_list st))
                 (set_fresh (S (fresh st)) st)).
Proof.
  intros [[Hdht Hne] Hd] Hurl Hsid ->. split.
  - split; simpl.
    + destruct (decide (url = "DHT")) as [->|Hn].
      * rewrite lookup_insert_eq. by eexists.
      * by rewrite lookup_insert_ne.
    + intros url' l0 Hl0 Hn'.
      destruct (decide (url' = url)) as [->|Hother].
      * rewrite lookup_insert_eq in Hl0. injection Hl0 as <-.
        by destruct (default [] _).
      * rewrite lookup_insert_ne in Hl0 by done. by apply (Hne url').
  - intros url' l0 Hl0. simpl in *.
    destruct (decide (url' = url)) as [->|Hother].
    + rewrite lookup_insert_eq in Hl0. injection Hl0 as <-.
      assert (Hold : NoDup (sid <$> default [] (_session_list st !! url))
                     ∧ ∀ x, x ∈ default [] (_session_list st !! url) →
                            (sid x < fresh st)%nat).
      { destruct (_session_list st !! url) as [l|] eqn:Hl; simpl.
        - by apply Hd in Hl.
        - split; [constructor|]. intros x Hx. by apply not_elem_of_nil in Hx. }
      destruct Hold as [Hnd Hlt]. split.
      * rewrite fmap_app. apply NoDup_app. split; [done|]. split.
        -- intros i Hi Hi'. apply list_elem_of_singleton in Hi'.
           apply list_elem_of_fmap in Hi as (x & -> & Hx).
           specialize (Hlt x Hx). lia.
        -- apply NoDup_singleton.
      * intros x Hx. apply elem_of_app in Hx as [Hx|Hx].
        -- specialize (Hlt x Hx). lia.
        -- apply list_elem_of_singleton in Hx as ->. lia.
    + rewrite lookup_insert_ne in Hl0 by done.
      destruct (Hd _ _ Hl0) as [Hnd Hlt]. split; [done|].
      intros x Hx. specialize (Hlt x Hx). lia.
Qed.

Lemma _create_session_for_request_registry_ok parses url tmo :
  preserves registry_ok (_create_session_for_request parses url tmo).
Proof.
  intros st Hok. rewrite _create_session_for_request_eq.
  destruct (parses url); [|done]. simpl.
  by apply registry_ok_register.
Qed.

Lemma fan_out_registry_ok parses infohash tmo tracker_set :
  preserves registry_ok (fan_out parses infohash tmo tracker_set).
Proof.
  unfold fan_out. apply preserves_bind.
  { apply preserves_for_M. intros url. apply preserves_bind.
    - apply _create_session_for_request_registry_ok.
    - intros s. unfold add_infohash, connect_to_tracker. registry_frame. }
  intros deferred_list st Hok.
  unfold mbind, M_bind, new_id, get, modify, raise, mret, M_ret. simpl.
  destruct (_session_list st !! "DHT") as [l|] eqn:Hl; simpl.
  - unfold connect_to_tracker, modify. simpl.
    apply (registry_ok_frame
      (set_session_list
         (<["DHT" := l ++ [mkSession (fresh st) "DHT" tmo false]]>
            (_session_list st)) (set_fresh (S (fresh st)) st)));
      [done|simpl; lia|].
    apply registry_ok_register; [done..|]. by rewrite Hl.
  - revert Hok. apply registry_ok_frame; simpl; [done|lia].
Qed.

Lemma add_gui_request_registry_ok parses is_valid_url set_order infohash tmo
    now :
  preserves registry_ok
    (add_gui_request parses is_valid_url set_order infohash tmo now).
Proof.
  unfold add_gui_request. apply preserves_bind; [apply preserves_get|].
  intros st0. destruct (TorrentState_table st0 !! infohash) as [result|].
  - destruct (_ && _); [apply preserves_ret|].
    apply preserves_bind; [|intros ?; apply fan_out_registry_ok].
    unfold get_valid_trackers_of_torrent. preserves_step; [preserves_step|].
    destruct (TorrentState_table _ !! _); preserves_step.
  - apply fan_out_registry_ok.
Qed.

Lemma on_gui_request_completed_registry_ok infohash result :
  preserves registry_ok (on_gui_request_completed infohash result).
Proof.
  unfold on_gui_request_completed. apply preserves_bind; [apply preserves_get|].
  intros st0. destruct (reconcile _ _ _) as [[fr u]|e]; [|preserves_step].
  unfold _update_torrent_result, publish_torrent_result.
  preserves_step.
  { preserves_step; [preserves_step|].
    destruct (TorrentState_table _ !! _); registry_frame. }
  preserves_step.
  { destruct (_ =? _); [preserves_step|].
    preserves_step; [preserves_step|].
    destruct (popularity_community _); registry_frame. }
  registry_frame.
Qed.

Lemma on_session_error_registry_ok s failure :
  preserves registry_ok (on_session_error s failure).
Proof.
  unfold on_session_error. case_bool_decide; [|preserves_step].
  preserves_step; [apply clean_session_registry_ok|].
  preserves_step; [|preserves_step].
  case_bool_decide; [preserves_step|].
  unfold update_tracker_info. registry_frame.
Qed.

Lemma _on_result_from_session_registry_ok s result_list :
  preserves registry_ok (_on_result_from_session s result_list).
Proof.
  unfold _on_result_from_session. preserves_step; [preserves_step|].
  destruct (_should_stop _); [preserves_step|].
  preserves_step; [apply clean_session_registry_ok|preserves_step].
Qed.

Lemma shutdown_registry_ok : preserves registry_ok shutdown.
Proof.
  unfold shutdown. preserves_step; [registry_frame|].
  preserves_step; [preserves_step|].
  preserves_step. { destruct (udp_port _); registry_frame. }
  preserves_step. { destruct (connection_pool _); registry_frame. }
  preserves_step; [registry_frame|].
  preserves_step; [preserves_step|].
  preserves_step.
  { preserves_step. unfold cleanup_sessions_of.
    preserves_step; [preserves_step|].
    destruct (_session_list _ !! _); [|preserves_step].
    unfold cleanup. registry_frame. }
  registry_frame.
Qed.

Lemma initialize_registry_ok socket_error :
  preserves registry_ok (initialize socket_error).
Proof.
  unfold initialize, create_socket_or_schedule, register_task.
  destruct socket_error; registry_frame.
Qed.

Lemma registry_ok_init now ts tr pop :
  registry_ok (TorrentChecker_init now ts tr pop).
Proof.
  split; [split|]; simpl.
  - rewrite lookup_singleton_eq. by eexists.
  - intros url l Hl Hn. by rewrite lookup_singleton_ne in Hl.
  - intros url l Hl. simpl in Hl.
    apply lookup_singleton_Some in Hl as [_ <-].
    split; [constructor|]. intros s Hs. by apply not_elem_of_nil in Hs.
Qed.

Lemma reachable_registry_ok parses is_valid_url set_order st :
  reachable parses is_valid_url set_order st → registry_ok st.
Proof.
  induction 1 as [now ts tr pop|o st _ IH|now ts tr pop st _ IH].
  - apply registry_ok_init.
  - destruct o; simpl.
    + by apply initialize_registry_ok.
    + by apply _create_session_for_request_registry_ok.
    + by apply add_gui_request_registry_ok.
    + by apply on_gui_request_completed_registry_ok.
    + by apply _on_result_from_session_registry_ok.
    + by apply on_session_error_registry_ok.
    + by apply clean_session_registry_ok.
    + by apply shutdown_registry_ok.
  - revert IH. by apply registry_ok_frame.
Qed.

(** C9: in every state the checker can reach, ["DHT"] is a key of the
    registry and no other key maps to an empty list; a retirement that goes
    through leaves every other identity alone and drops the session's
    identity exactly when its list has become empty and it is not
    ["DHT"]. *)
Theorem registry_invariant parses is_valid_url set_order :
  (∀ st, reachable parses is_valid_url set_order st →
         registry_inv (_session_list st))
  ∧ (∀ s st st',
       clean_session s st = (Ok tt, st') →
       ∃ l l', _session_list st !! tracker_url s = Some l
         ∧ list_remove s l = Some l'
         ∧ (∀ url, url ≠ tracker_url s →
              _session_list st' !! url = _session_list st !! url)
         ∧ _session_list st' !! tracker_url s
           = if decide (l' = [] ∧ tracker_url s ≠ "DHT") then None
             else Some l').
Proof.
  split.
  - intros st Hr.
    by apply (reachable_registry_ok parses is_valid_url set_order).
  - intros s st st'. rewrite clean_session_eq.
    destruct (_session_list st !! tracker_url s) as [l|] eqn:Hl; [|done].
    destruct (list_remove s l) as [l'|] eqn:Hrm; [|done].
    intros [= <-]. exists l, l'. split; [done|]. split; [done|].
    rewrite eqb_DHT. simpl. split.
    + intros url Hurl.
      destruct (_ && _); simpl;
        [rewrite lookup_delete_ne by done|]; by rewrite lookup_insert_ne.
    + destruct (decide (l' = [] ∧ tracker_url s ≠ "DHT")) as [[-> Hn]|Hn].
      * rewrite (bool_decide_eq_false_2 _ Hn). simpl.
        by rewrite lookup_delete_eq.
      * assert (bool_decide (length l' = 0%nat)
                && negb (bool_decide (tracker_url s = "DHT")) = false) as ->.
        { apply andb_false_iff.
          destruct (decide (tracker_url s = "DHT")) as [He|Hne].
          - right. by rewrite (bool_decide_eq_true_2 _ He).
          - left. apply bool_decide_eq_false_2. intros Hlen.
            apply Hn. split; [|done]. by destruct l'. }
        by rewrite lookup_insert_eq.
Qed.

Lemma registry_invariant_witness :
  registry_inv (_session_list example_probing).
Proof.
  apply (proj1 (registry_invariant (λ _, true) (λ _, true) remove_dups)).
  apply reachable_run, reachable_run, reachable_init.
Defined.

(** C8, as the code has it: in a state the checker can reach, retiring a
    session that has just been retired raises ([KeyError] when the first
    retirement dropped the identity, [ValueError] when the identity is still
    there) after the tracker outcome was recorded and a cleanup collected
    once more, and the registry stays as the first retirement left it. *)
Theorem clean_session_twice parses is_valid_url set_order s st st1 :
  reachable parses is_valid_url set_order st →
  clean_session s st = (Ok tt, st1) →
  ∃ e, clean_session s st1 = (Raise e, retiring s st1)
    ∧ e = match _session_list st1 !! tracker_url s with
          | Some _ => ValueError
          | None => KeyError
          end
    ∧ _session_list (retiring s st1) = _session_list st1.
Proof.
  intros Hr. apply reachable_registry_ok in Hr as [_ Hd].
  rewrite clean_session_eq.
  destruct (_session_list st !! tracker_url s) as [l|] eqn:Hl; [|done].
  destruct (list_remove s l) as [l'|] eqn:Hrm; [|done].
  intros [= <-]. rewrite clean_session_eq.
  destruct (Hd _ _ Hl) as [Hnd _].
  destruct (list_remove_NoDup _ _ _ Hnd Hrm) as [_ Hs].
  apply list_remove_None in Hs.
  cbn [_session_list set_session_list].
  destruct (_ && _).
  - rewrite lookup_delete_eq. by eexists.
  - rewrite lookup_insert_eq, Hs. by eexists.
Qed.

Lemma clean_session_twice_witness :
  ∃ e,
    clean_session example_session (clean_session example_session
                                     example_probing).2
    = (Raise e, retiring example_session
                  (clean_session example_session example_probing).2)
    ∧ e = match _session_list (clean_session example_session
                                 example_probing).2
                !! tracker_url example_session with
          | Some _ => ValueError
          | None => KeyError
          end
    ∧ _session_list (retiring example_session
                       (clean_session example_session example_probing).2)
      = _session_list (clean_session example_session example_probing).2.
Proof.
  apply (clean_session_twice (λ _, true) (λ _, true) remove_dups _
           example_probing).
  - apply reachable_run, reachable_run, reachable_init.
  - vm_compute. reflexivity.
Defined.

(** C8, as the claim has it, fails: the second retirement of the example
    session raises [KeyError]. *)
Lemma clean_session_twice_raises :
  (clean_session example_session example_probing).1 = Ok tt
  ∧ (clean_session example_session
       (clean_session example_session example_probing).2).1
    = Raise KeyError.
Proof. split; vm_compute; reflexivity. Qed.

(** ** Session errors *)

(** On a cancellation, [on_session_error] leaves the state that
    [clean_session] leaves: the tracker manager has been told. *)
Lemma on_session_error_cancelled s failure st :
  f_type failure ∈ [CancelledError; ConnectingCancelledError] →
  (on_session_error s failure st).2 = (clean_session s st).2.
Proof.
  intros Hc. unfold on_session_error.
  rewrite bool_decide_eq_true_2.
  2:{ apply elem_of_cons in Hc as [->|Hc]; [set_solver|].
      apply list_elem_of_singleton in Hc as ->. set_solver. }
  rewrite (bool_decide_eq_true_2 _ Hc).
  unfold mbind, M_bind, mret, M_ret.
  by destruct (clean_session s st) as [[[]|e] st'].
Qed.

(** [clean_session] reports to the tracker manager whatever happens to the
    registry afterwards. *)
Lemma clean_session_tracker_state s st :
  TrackerState_table (clean_session s st).2
  = TrackerState_table
      (update_tracker_info (tracker_url s) (negb (is_failed s)) st).2.
Proof.
  rewrite clean_session_eq.
  destruct (_session_list st !! tracker_url s) as [l|]; [|done].
  by destruct (list_remove s l).
Qed.

(** C3 on the code: the example tracker has failed three times; when the
    probe of its session is cancelled, [on_session_error] leaves it with
    no failure, and with four if the session had been marked failed. *)
Theorem cancelled_probe_changes_failures :
  failures <$> TrackerState_table example_probing
                 !! "http://tracker/announce" = Some 3
  ∧ failures <$> TrackerState_table
                   (on_session_error example_session
                      (mkFailure CancelledError "cancelled" None)
                      example_probing).2
                 !! "http://tracker/announce" = Some 0
  ∧ failures <$> TrackerState_table
                   (on_session_error
                      (mkSession 0 "http://tracker/announce" 20 true)
                      (mkFailure CancelledError "cancelled" None)
                      example_probing).2
                 !! "http://tracker/announce" = Some 4.
Proof. repeat split; vm_compute; reflexivity. Qed.

(** ** Shutdown *)

Lemma cleanups_length n l : length (cleanups n l) = length l.
Proof. revert n. induction l as [|s l IH]; intros n; simpl; [done|]. by rewrite IH. Qed.

Lemma cleanups_elem n l s :
  s ∈ l →
  ∃ d, d ∈ cleanups n l ∧ d_signal d = Cleanup (sid s) ∧ (n ≤ d_id d)%nat.
Proof.
  revert n. induction l as [|x l IH]; intros n Hs.
  - by apply not_elem_of_nil in Hs.
  - apply elem_of_cons in Hs as [->|Hs]; simpl.
    + eexists. split; [left|]. simpl. split; [done|lia].
    + destruct (IH (S n) Hs) as (d & Hd & Hsig & Hid).
      exists d. split; [by right|]. split; [done|lia].
Qed.

Lemma all_cleanups_elem n ls l s :
  l ∈ ls → s ∈ l →
  ∃ d, d ∈ all_cleanups n ls ∧ d_signal d = Cleanup (sid s)
       ∧ (n ≤ d_id d)%nat.
Proof.
  revert n. induction ls as [|x ls IH]; intros n Hl Hs.
  - by apply not_elem_of_nil in Hl.
  - apply elem_of_cons in Hl as [->|Hl]; simpl.
    + destruct (cleanups_elem n _ _ Hs) as (d & Hd & Hsig & Hid).
      exists d. split; [|done]. apply elem_of_app. by left.
    + destruct (IH (n + length x)%nat Hl Hs) as (d & Hd & Hsig & Hid).
      exists d. split; [apply elem_of_app; by right|]. split; [done|lia].
Qed.

(** The state after some more deferreds were allocated and collected. *)
Lemma collected_more st ds ds' n :
  set_defer_list
    ((session_stop_defer_list st ++ ds) ++ ds')
    (set_fresh n (set_defer_list (session_stop_defer_list st ++ ds)
                    (set_fresh (fresh st + length ds) st)))
  = set_defer_list (session_stop_defer_list st ++ ds ++ ds')
      (set_fresh n st).
Proof. destruct st. unfold set_defer_list, set_fresh. simpl. by rewrite app_assoc. Qed.

(** The inner loop: one cleanup per session, in order. *)
Lemma cleanup_loop l : ∀ st,
  for_M (λ s, d ← cleanup s;
              modify (λ st, set_defer_list
                              (session_stop_defer_list st ++ [d]) st))
        l st
  = (Ok ((λ _, tt) <$> l),
     set_defer_list (session_stop_defer_list st ++ cleanups (fresh st) l)
       (set_fresh (fresh st + length l) st)).
Proof.
  induction l as [|s l IH]; intros st.
  - simpl. unfold mret, M_ret. f_equal.
    destruct st. unfold set_defer_list, set_fresh. simpl.
    by rewrite app_nil_r, Nat.add_0_r.
  - cbn [for_M]. unfold mbind, M_bind at 1.
    unfold cleanup, new_id, modify, mbind, M_bind at 1, mret, M_ret.
    cbn beta iota. fold (@mbind M _). unfold mbind, M_bind.
    rewrite IH. cbn. f_equal.
    destruct st. unfold set_defer_list, set_fresh. simpl.
    rewrite <- app_assoc. simpl. f_equal. lia.
Qed.

(** The loop of lines 93-95 over identities the registry holds. *)
Lemma cleanup_sessions_loop ks : ∀ st,
  (∀ k, k ∈ ks → is_Some (_session_list st !! k)) →
  ∃ r, for_M cleanup_sessions_of ks st
  = (Ok r,
     let ls := (λ k, default [] (_session_list st !! k)) <$> ks in
     set_defer_list
       (session_stop_defer_list st ++ all_cleanups (fresh st) ls)
       (set_fresh (fresh st + length (all_cleanups (fresh st) ls)) st)).
Proof.
  induction ks as [|k ks IH]; intros st Hks.
  - eexists. simpl. unfold mret, M_ret. f_equal.
    destruct st. unfold set_defer_list, set_fresh. simpl.
    by rewrite app_nil_r, Nat.add_0_r.
  - destruct (Hks k) as [l Hl]; [left|].
    cbn [for_M]. unfold mbind, M_bind at 1.
    unfold cleanup_sessions_of at 1. unfold mbind, M_bind at 1, get.
    rewrite Hl, cleanup_loop.
    set (st1 := set_defer_list _ _).
    destruct (IH st1) as [r Hr].
    { intros k' Hk'. subst st1. simpl. apply Hks. by right. }
    unfold mbind, M_bind. rewrite Hr. eexists. unfold mret, M_ret.
    f_equal. subst st1. cbn [fmap list_fmap all_cleanups]. rewrite Hl.
    cbn [default]. simpl _session_list. simpl fresh.
    simpl session_stop_defer_list.
    destruct st. unfold set_defer_list, set_fresh. simpl.
    rewrite <- app_assoc, length_app, cleanups_length. f_equal. lia.
Qed.

(** [shutdown], spelled out. *)
Lemma shutdown_eq st :
  let st1 := stopping st in
  let ls := (map_to_list (_session_list st)).*2 in
  let ds := session_stop_defer_list st1 ++ all_cleanups (fresh st1) ls in
  shutdown st
  = (Ok ds,
     set_defer_list ds
       (set_fresh (fresh st1 + length (all_cleanups (fresh st1) ls)) st1)).
Proof.
  intros st1 ls ds.
  assert (Hm : _session_list st1 = _session_list st).
  { subst st1. unfold stopping. simpl.
    by destruct (udp_port st), (connection_pool st). }
  destruct (cleanup_sessions_loop (map_to_list (_session_list st)).*1 st1)
    as [r Hr].
  { intros k Hk. apply list_elem_of_fmap in Hk as ([k' l] & -> & Hk).
    apply elem_of_map_to_list in Hk. rewrite Hm. by eexists. }
  assert (Hls : (λ k, default [] (_session_list st1 !! k))
                  <$> (map_to_list (_session_list st)).*1 = ls).
  { subst ls. rewrite <- list_fmap_compose. apply list_fmap_ext.
    intros i [k l] Hi. change (default [] (_session_list st1 !! k) = l).
    rewrite Hm.
    apply list_elem_of_lookup_2, elem_of_map_to_list in Hi. by rewrite Hi. }
  cbn zeta in Hr. rewrite Hls in Hr.
  assert (Hsh : shutdown st
    = (_ ← for_M cleanup_sessions_of (map_to_list (_session_list st)).*1;
       st' ← get; mret (session_stop_defer_list st')) st1).
  { subst st1. unfold shutdown, stopping, modify, get, new_id, mbind, M_bind,
      mret, M_ret. simpl.
    destruct (udp_port st), (connection_pool st); simpl; reflexivity. }
  rewrite Hsh. unfold mbind, M_bind at 1. rewrite Hr.
  unfold mbind, M_bind, get, mret, M_ret. reflexivity.
Qed.

(** C4, as the code has it: [shutdown] returns the list of every completion
    signal collected so far -- those collected before it was called, the
    listener's and the pool's if there are any, and a cleanup it starts for
    each session the registry holds -- so that its [DeferredList] has fired
    only when each of them has; the stopping flag is set and the registry
    itself is left as it was. *)
Theorem shutdown_waits_for_collected_signals st :
  ∃ ds st', shutdown st = (Ok ds, st')
    ∧ _should_stop st' = true
    ∧ _session_list st' = _session_list st
    ∧ (∀ d, d ∈ session_stop_defer_list st → d ∈ ds)
    ∧ (udp_port st = true → ∃ d, d ∈ ds ∧ d_signal d = StopListening)
    ∧ (connection_pool st = true →
       ∃ d, d ∈ ds ∧ d_signal d = CloseCachedConnections)
    ∧ (∀ url l s, _session_list st !! url = Some l → s ∈ l →
         ∃ d, d ∈ ds ∧ d_signal d = Cleanup (sid s)
              ∧ (fresh st ≤ d_id d)%nat)
    ∧ (∀ fired, DeferredList_fired fired ds = true →
         ∀ d, d ∈ ds → fired d = true).
Proof.
  pose proof (shutdown_eq st) as Heq. cbn zeta in Heq.
  do 2 eexists. split; [exact Heq|].
  assert (Hpre : ∀ d, d ∈ session_stop_defer_list st →
                      d ∈ session_stop_defer_list (stopping st)).
  { intros d Hd. unfold stopping. simpl.
    destruct (udp_port st), (connection_pool st); simpl;
      repeat (apply elem_of_app; left); done. }
  assert (Hfresh : (fresh st ≤ fresh (stopping st))%nat).
  { unfold stopping. simpl.
    destruct (udp_port st), (connection_pool st); simpl; lia. }
  repeat split.
  - unfold stopping. simpl. by destruct (udp_port st), (connection_pool st).
  - unfold stopping. simpl. by destruct (udp_port st), (connection_pool st).
  - intros d Hd. apply elem_of_app. left. by apply Hpre.
  - intros Hu. exists (mkDeferred (fresh st) StopListening). split; [|done].
    apply elem_of_app. left. unfold stopping. simpl. rewrite Hu.
    destruct (connection_pool st); simpl; set_solver.
  - intros Hc.
    exists (mkDeferred (if udp_port st then S (fresh st) else fresh st)
              CloseCachedConnections).
    split; [|done].
    apply elem_of_app. left. unfold stopping. simpl. rewrite Hc.
    destruct (udp_port st); simpl; apply elem_of_app; right; left.
  - intros url l s Hl Hs.
    destruct (all_cleanups_elem (fresh (stopping st))
                (map_to_list (_session_list st)).*2 l s)
      as (d & Hd & Hsig & Hid); [|done|].
    { apply list_elem_of_fmap. exists (url, l). split; [done|].
      by apply elem_of_map_to_list. }
    exists d. split; [apply elem_of_app; by right|]. split; [done|lia].
  - intros fired Hf d Hd. unfold DeferredList_fired in Hf.
    rewrite forallb_forall in Hf. apply Hf. by apply list_elem_of_In.
Qed.

(** C4, as the claim has it, fails: after [shutdown] of the checker with the
    example session in flight, with every collected signal fired and the
    probe's result delivered, the registry still holds the session. *)
Lemma shutdown_keeps_sessions_registered :
  ∃ ds, (shutdown example_probing).1 = Ok ds
    ∧ DeferredList_fired (λ _, true) ds = true
    ∧ _session_list (shutdown example_probing).2
        !! "http://tracker/announce" = Some [example_session]
    ∧ _session_list
        (_on_result_from_session example_session
           (RDict [("http://tracker/announce", [mkHealth 1 2 "ih"])])
           (shutdown example_probing).2).2
        !! "http://tracker/announce" = Some [example_session].
Proof.
  exists [mkDeferred 1 StopListening; mkDeferred 2 CloseCachedConnections;
          mkDeferred 3 (Cleanup 0)].
  repeat split; vm_compute; reflexivity.
Qed.

(** ** Persisting and publishing *)

Lemma _update_torrent_result_eq u st :
  _update_torrent_result u st
  = (Ok tt,
     match TorrentState_table st !! u_infohash u with
     | None => st
     | Some torrent =>
         set_TorrentState_table
           (<[u_infohash u :=
                {| seeders := u_seeders u; leechers := u_leechers u;
                   last_check := u_last_check u;
                   trackers := trackers torrent |}]>
              (TorrentState_table st)) st
     end).
Proof.
  unfold _update_torrent_result, mbind, M_bind, get.
  by destruct (TorrentState_table st !! u_infohash u).
Qed.

Lemma publish_torrent_result_eq u st :
  publish_torrent_result u st
  = (Ok tt,
     if u_seeders u =? 0 then st
     else match popularity_community st with
          | Some queue =>
              set_popularity_community
                (Some (queue ++ [(u_infohash u, u_seeders u, u_leechers u,
                                  u_last_check u)])) st
          | None => st
          end).
Proof.
  unfold publish_torrent_result. destruct (u_seeders u =? 0); [done|].
  unfold mbind, M_bind, get. by destruct (popularity_community st).
Qed.

(** [on_gui_request_completed], spelled out. *)
Lemma on_gui_request_completed_eq infohash result st :
  on_gui_request_completed infohash result st
  = match reconcile infohash (clock st) result with
    | Raise e => (Raise e, st)
    | Ok (final_response, u) =>
        let st1 := (_update_torrent_result u st).2 in
        let st2 := (publish_torrent_result u st1).2 in
        (Ok final_response,
         set_notified
           (notified st2 ++
              [{| n_infohash := infohash; num_seeders := u_seeders u;
                  num_leechers := u_leechers u;
                  last_tracker_check := u_last_check u |}]) st2)
    end.
Proof.
  unfold on_gui_request_completed, mbind, M_bind at 1, get.
  destruct (reconcile infohash (clock st) result) as [[fr u]|e]; [|done].
  unfold mbind, M_bind.
  rewrite !_update_torrent_result_eq. cbn [snd].
  rewrite !publish_torrent_result_eq. reflexivity.
Qed.

(** C5: when [on_gui_request_completed] has reconciled well-formed outcomes
    it returns; the reconciled seeders are never negative; when they are 0
    (as they are when every successful outcome reports 0 seeders) the
    popularity community's queue is left alone while the torrent's stored
    record, if there is one, takes the reconciled triple; and the queue
    changes only when the seeders are positive. *)
Theorem zero_seeders_persisted_not_published infohash result st :
  Forall well_formed result →
  ∃ fr u st',
    on_gui_request_completed infohash result st = (Ok fr, st')
    ∧ reconcile infohash (clock st) result = Ok (fr, u)
    ∧ 0 ≤ u_seeders u
    ∧ ((∀ p, p ∈ successes result → p.1 = 0) → u_seeders u = 0)
    ∧ (u_seeders u = 0 →
         popularity_community st' = popularity_community st
         ∧ ∀ old, TorrentState_table st !! infohash = Some old →
             TorrentState_table st' !! infohash
             = Some {| seeders := 0; leechers := u_leechers u;
                       last_check := py_int (clock st);
                       trackers := trackers old |})
    ∧ (popularity_community st' ≠ popularity_community st →
         0 < u_seeders u).
Proof.
  intros Hwf.
  destruct (reconcile_returns infohash (clock st) _ Hwf)
    as (fr & u & Hr & Hih & Hlc & Hin & Hmax).
  rewrite on_gui_request_completed_eq, Hr. cbn zeta.
  rewrite _update_torrent_result_eq, publish_torrent_result_eq.
  do 3 eexists. split; [reflexivity|]. split; [done|].
  assert (Hpos : 0 ≤ u_seeders u).
  { specialize (Hmax (0, 0)). unfold lex_le in Hmax. simpl in Hmax.
    destruct Hmax; [left|lia|lia]. }
  split; [done|]. split; [|split].
  - intros Hz. apply elem_of_cons in Hin as [Heq|Hin].
    + by injection Heq.
    + by apply Hz in Hin.
  - intros Hz. rewrite Hz. simpl. rewrite Hih.
    destruct (TorrentState_table st !! infohash) as [old|] eqn:Hold; simpl.
    + split; [done|]. intros ? [= <-].
      by rewrite lookup_insert_eq, Hlc.
    + done.
  - intros Hq. destruct (decide (u_seeders u = 0)) as [Hz|Hnz]; [|lia].
    exfalso. apply Hq. rewrite Hz. simpl.
    by destruct (TorrentState_table st !! u_infohash u).
Qed.

Lemma zero_seeders_persisted_not_published_witness :
  ∃ fr u st',
    on_gui_request_completed "ih"
      [(true, RDict [("DHT", [mkHealth 0 5 "ih"])])] example_checker
    = (Ok fr, st')
    ∧ reconcile "ih" (clock example_checker)
        [(true, RDict [("DHT", [mkHealth 0 5 "ih"])])] = Ok (fr, u)
    ∧ 0 ≤ u_seeders u
    ∧ ((∀ p, p ∈ successes [(true, RDict [("DHT", [mkHealth 0 5 "ih"])])] →
             p.1 = 0) → u_seeders u = 0)
    ∧ (u_seeders u = 0 →
         popularity_community st' = popularity_community example_checker
         ∧ ∀ old, TorrentState_table example_checker !! "ih" = Some old →
             TorrentState_table st' !! "ih"
             = Some {| seeders := 0; leechers := u_leechers u;
                       last_check := py_int (clock example_checker);
                       trackers := trackers old |})
    ∧ (popularity_community st' ≠ popularity_community example_checker →
         0 < u_seeders u).
Proof.
  apply (zero_seeders_persisted_not_published "ih" _ example_checker).
  repeat constructor. by eexists.
Defined.







(** ** On-demand checks *)

Lemma Qltb_lt x y : Qltb x y = true ↔ (x < y)%Q.
Proof. unfold Qltb, Qlt. apply Z.ltb_lt. Qed.

(** C6: for a torrent whose stored record was checked less than
    [_torrent_check_interval] ago, [add_gui_request] without [scrape_now]
    returns the stored seeders and leechers at once and leaves the whole
    state as it was: no session is registered, no session method is called,
    the record is untouched. *)
Theorem add_gui_request_short_circuit parses is_valid_url set_order infohash
    tmo st result :
  TorrentState_table st !! infohash = Some result →
  (clock st - inject_Z (last_check result)
   < inject_Z (_torrent_check_interval st))%Q →
  add_gui_request parses is_valid_url set_order infohash tmo false st
  = (Ok (Succeed {| h_seeders := seeders result;
                    h_leechers := leechers result;
                    h_infohash := hexlify infohash |}), st).
Proof.
  intros Hres Hlt. unfold add_gui_request, mbind, M_bind at 1, get.
  rewrite Hres. cbn zeta. apply Qltb_lt in Hlt. rewrite Hlt. reflexivity.
Qed.

Lemma add_gui_request_short_circuit_witness :
  add_gui_request (λ _, true) (λ _, true) backwards "ih" 20 false
    example_checker
  = (Ok (Succeed {| h_seeders := 4; h_leechers := 7; h_infohash := "6968" |}),
     example_checker).
Proof.
  apply (add_gui_request_short_circuit (λ _, true) (λ _, true) backwards
           "ih" 20
           example_checker
           {| seeders := 4; leechers := 7; last_check := 900;
              trackers := ["http://tracker/announce"] |}).
  - reflexivity.
  - reflexivity.
Defined.

(** ** Backoff *)

(** A torrent is selected when it is listed under the tracker and line 130
    holds for it. *)
Lemma select_infohashes_due url st infohash :
  infohash ∈ select_infohashes url st ↔
  ∃ tracker torrent,
    TrackerState_table st !! url = Some tracker
    ∧ TorrentState_table st !! infohash = Some torrent
    ∧ url ∈ trackers torrent
    ∧ due_for_recheck (_torrent_check_retry_interval st) (last_check torrent)
        (failures tracker) (py_int (clock st)) = true.
Proof.
  unfold select_infohashes, tracker_torrents.
  destruct (TrackerState_table st !! url) as [tracker|].
  - rewrite list_elem_of_fmap. split.
    + intros ([ih t] & -> & Hin). simpl.
      apply list_elem_of_filter in Hin as [Hdue Hin].
      apply list_elem_of_filter in Hin as [Hurl Hin].
      apply elem_of_map_to_list in Hin. by exists tracker, t.
    + intros (tr & t & [= <-] & Ht & Hurl & Hdue).
      exists (infohash, t). split; [done|].
      apply list_elem_of_filter. split; [done|].
      apply list_elem_of_filter. split; [done|].
      by apply elem_of_map_to_list.
  - split; [intros H; by apply not_elem_of_nil in H|].
    by intros (? & ? & ? & _).
Qed.

(** With a failure count that is not negative the interval is an integer
    and line 130 compares integers. *)
Lemma due_for_recheck_nonneg retry_interval last_check0 failures0 now :
  0 ≤ failures0 →
  due_for_recheck retry_interval last_check0 failures0 now
  = (last_check0 + retry_interval * 2 ^ failures0 <? now).
Proof.
  intros Hf. unfold due_for_recheck, dynamic_interval.
  apply eq_true_iff_eq. rewrite Qltb_lt, Z.ltb_lt.
  change 2%Q with (inject_Z 2).
  rewrite <- (Zpower_Qpower 2 failures0 Hf).
  by rewrite <- inject_Z_mult, <- inject_Z_plus, <- Zlt_Qlt.
Qed.

(** C2, as the code has it: with a failure count that is not negative and
    not above the maximum, a torrent is due exactly when
    [now - last_check] is greater than (not: at least)
    [retry_interval * 2^min(failures, max)]; and a torrent due after more
    failures is due after fewer. *)
Theorem due_for_recheck_strict retry_interval max_retries last_check0
    failures0 now :
  0 ≤ failures0 ≤ max_retries →
  (due_for_recheck retry_interval last_check0 failures0 now = true
   ↔ retry_interval * 2 ^ Z.min failures0 max_retries < now - last_check0)
  ∧ (∀ more, 0 ≤ retry_interval → failures0 ≤ more →
       due_for_recheck retry_interval last_check0 more now = true →
       due_for_recheck retry_interval last_check0 failures0 now = true).
Proof.
  intros Hf. split.
  - rewrite due_for_recheck_nonneg, Z.ltb_lt, Z.min_l by lia. lia.
  - intros more Hr Hmore. rewrite !due_for_recheck_nonneg, !Z.ltb_lt by lia.
    assert (2 ^ failures0 ≤ 2 ^ more) by (apply Z.pow_le_mono_r; lia).
    nia.
Qed.

Lemma due_for_recheck_strict_witness :
  (due_for_recheck 30 900 3 1000 = true
   ↔ 30 * 2 ^ Z.min 3 8 < 1000 - 900)
  ∧ (∀ more, 0 ≤ 30 → 3 ≤ more →
       due_for_recheck 30 900 more 1000 = true →
       due_for_recheck 30 900 3 1000 = true).
Proof. apply (due_for_recheck_strict 30 8 900 3 1000). lia. Defined.

(** C2, as the claim has it, fails twice: a torrent checked exactly one
    interval ago is not due yet, and after nine failures the interval is
    [30 * 2^9], past the ceiling of eight increments. *)
Lemma due_for_recheck_not_spec :
  (due_for_recheck DEFAULT_TORRENT_CHECK_RETRY_INTERVAL 0 0 30 = false
   ∧ dueForRecheck_spec DEFAULT_TORRENT_CHECK_RETRY_INTERVAL
       DEFAULT_MAX_TORRENT_CHECK_RETRIES 0 0 30 = true)
  ∧ (due_for_recheck DEFAULT_TORRENT_CHECK_RETRY_INTERVAL 0 9 7681 = false
     ∧ dueForRecheck_spec DEFAULT_TORRENT_CHECK_RETRY_INTERVAL
         DEFAULT_MAX_TORRENT_CHECK_RETRIES 0 9 7681 = true).
Proof. repeat split; reflexivity. Qed.

(** ** More on the aggregated check *)

Lemma gui_body_raise_class acc o e :
  gui_body acc o = Raise e → e = AttributeError ∨ e = IndexError.
Proof.
  destruct acc as [fr u], o as [success [f|d|]]; simpl.
  - destruct success; simpl; [intros [= <-]; by left|].
    destruct (f_tracker_url f); [done|]. intros [= <-]. by left.
  - destruct d as [|[key [|h hs]] d]; try (intros [= <-]; by right).
    by destruct (improves _ _ _).
  - intros [= <-]. by left.
Qed.

Lemma for_res_gui_body_raise_class l : ∀ acc e,
  for_res gui_body l acc = Raise e → e = AttributeError ∨ e = IndexError.
Proof.
  induction l as [|o l IH]; intros acc e; cbn [for_res]; [done|].
  destruct (gui_body acc o) as [acc'|e'] eqn:Hb; simpl.
  - apply IH.
  - intros [= <-]. by eapply gui_body_raise_class.
Qed.

(** X1: an outcome that the loop of [on_gui_request_completed] cannot read
    (a [None] result, an empty result dict, a failure without
    [tracker_url]) makes the whole call raise [AttributeError] or
    [IndexError], and nothing has been stored, published or notified: the
    state is the one before the call. *)
Theorem on_gui_request_completed_all_or_nothing infohash result st o :
  o ∈ result → ¬ well_formed o →
  ∃ e, on_gui_request_completed infohash result st = (Raise e, st)
    ∧ (e = AttributeError ∨ e = IndexError).
Proof.
  intros Ho Hn.
  assert (Hnwf : ¬ Forall well_formed result).
  { intros Hwf. apply Hn. by eapply Forall_forall in Hwf. }
  destruct (reconcile_raises infohash (clock st) _ Hnwf) as [e He].
  exists e. rewrite on_gui_request_completed_eq, He. split; [done|].
  by eapply for_res_gui_body_raise_class.
Qed.

Lemma on_gui_request_completed_all_or_nothing_witness :
  ∃ e, on_gui_request_completed "ih"
         [(true, RDict [("DHT", [mkHealth 5 9 "ih"])]); (true, RNone)]
         example_checker
       = (Raise e, example_checker)
    ∧ (e = AttributeError ∨ e = IndexError).
Proof.
  apply (on_gui_request_completed_all_or_nothing "ih" _ example_checker
           (true, RNone)).
  - set_solver.
  - intros [x Hx]. discriminate Hx.
Defined.

(** X2: after [on_gui_request_completed] on well-formed outcomes, the
    notification it appended, the torrent's stored record (if there is one)
    and the content queued for the popularity community (if the community
    is there and the seeders are not 0) all carry the same reconciled
    seeders, leechers and check time. *)
Theorem reconciled_triple_everywhere infohash result st :
  Forall well_formed result →
  ∃ fr s l st',
    on_gui_request_completed infohash result st = (Ok fr, st')
    ∧ seeders_leechers (reconcile infohash (clock st) result) = Some (s, l)
    ∧ notified st'
      = notified st ++ [{| n_infohash := infohash; num_seeders := s;
                           num_leechers := l;
                           last_tracker_check := py_int (clock st) |}]
    ∧ (∀ old, TorrentState_table st !! infohash = Some old →
         TorrentState_table st' !! infohash
         = Some {| seeders := s; leechers := l;
                   last_check := py_int (clock st);
                   trackers := trackers old |})
    ∧ popularity_community st'
      = match popularity_community st with
        | Some queue =>
            if s =? 0 then Some queue
            else Some (queue ++ [(infohash, s, l, py_int (clock st))])
        | None => None
        end.
Proof.
  intros Hwf.
  destruct (reconcile_returns infohash (clock st) _ Hwf)
    as (fr & u & Hr & Hih & Hlc & _).
  rewrite on_gui_request_completed_eq, Hr. cbn zeta.
  rewrite _update_torrent_result_eq, publish_torrent_result_eq.
  exists fr, (u_seeders u), (u_leechers u). eexists.
  split; [reflexivity|]. split; [done|]. rewrite Hih, Hlc.
  destruct (TorrentState_table st !! infohash) as [old|] eqn:Hold;
    destruct (u_seeders u =? 0); simpl;
    destruct (popularity_community st) eqn:Hpop; simpl;
    rewrite ?Hpop; repeat split; try done;
    intros ? [= <-]; by rewrite lookup_insert_eq.
Qed.

Lemma reconciled_triple_everywhere_witness :
  ∃ fr s l st',
    on_gui_request_completed "ih" example_outcomes example_checker
    = (Ok fr, st')
    ∧ seeders_leechers
        (reconcile "ih" (clock example_checker) example_outcomes)
      = Some (s, l)
    ∧ notified st'
      = notified example_checker
        ++ [{| n_infohash := "ih"; num_seeders := s; num_leechers := l;
               last_tracker_check := py_int (clock example_checker) |}]
    ∧ (∀ old, TorrentState_table example_checker !! "ih" = Some old →
         TorrentState_table st' !! "ih"
         = Some {| seeders := s; leechers := l;
                   last_check := py_int (clock example_checker);
                   trackers := trackers old |})
    ∧ popularity_community st'
      = match popularity_community example_checker with
        | Some queue =>
            if s =? 0 then Some queue
            else Some (queue ++ [("ih", s, l,
                                  py_int (clock example_checker))])
        | None => None
        end.
Proof.
  apply (reconciled_triple_everywhere "ih" example_outcomes example_checker).
  repeat constructor; by eexists.
Defined.

(** X3: [on_gui_request_completed] never adds or drops a row of the torrent
    table, never touches the row of another torrent or the tracker list of
    its own, and leaves the tracker table, the registry, the collected
    signals, the session calls and the stopping flag alone, whatever the
    outcomes are. *)
Theorem on_gui_request_completed_frame infohash result st :
  let st' := (on_gui_request_completed infohash result st).2 in
  dom (TorrentState_table st') = dom (TorrentState_table st)
  ∧ (∀ other, other ≠ infohash →
       TorrentState_table st' !! other = TorrentState_table st !! other)
  ∧ trackers <$> TorrentState_table st' !! infohash
    = trackers <$> TorrentState_table st !! infohash
  ∧ TrackerState_table st' = TrackerState_table st
  ∧ _session_list st' = _session_list st
  ∧ session_stop_defer_list st' = session_stop_defer_list st
  ∧ calls st' = calls st
  ∧ fresh st' = fresh st
  ∧ _should_stop st' = _should_stop st.
Proof.
  cbn zeta. rewrite on_gui_request_completed_eq.
  destruct (reconcile infohash (clock st) result) as [[fr u]|e] eqn:Hr;
    [|done].
  assert (Hih : u_infohash u = infohash).
  { unfold reconcile in Hr.
    assert (Hinv : ∀ l acc acc', for_res gui_body l acc = Ok acc' →
                     u_infohash acc'.2 = u_infohash acc.2).
    { clear. induction l as [|o l IH]; intros acc acc'; cbn [for_res].
      - by intros [= ->].
      - destruct (gui_body acc o) as [acc1|] eqn:Hb; simpl; [|done].
        intros Hl. rewrite (IH _ _ Hl).
        destruct acc as [fr u], o as [success [f|d|]]; simpl in Hb.
        + destruct success; simpl in Hb; [done|].
          destruct (f_tracker_url f); [|done]. by injection Hb as <-.
        + destruct d as [|[key [|h hs]] d]; try done.
          destruct (improves _ _ _); by injection Hb as <-.
        + done. }
    by apply Hinv in Hr. }
  cbn zeta. rewrite _update_torrent_result_eq, publish_torrent_result_eq.
  rewrite Hih. cbn [snd].
  set (st1 := match TorrentState_table st !! infohash with
              | Some torrent => _
              | None => st
              end).
  assert (Hst1 :
    dom (TorrentState_table st1) = dom (TorrentState_table st)
    ∧ (∀ other, other ≠ infohash →
         TorrentState_table st1 !! other = TorrentState_table st !! other)
    ∧ trackers <$> TorrentState_table st1 !! infohash
      = trackers <$> TorrentState_table st !! infohash
    ∧ TrackerState_table st1 = TrackerState_table st
    ∧ _session_list st1 = _session_list st
    ∧ session_stop_defer_list st1 = session_stop_defer_list st
    ∧ calls st1 = calls st
    ∧ fresh st1 = fresh st
    ∧ _should_stop st1 = _should_stop st).
  { subst st1.
    destruct (TorrentState_table st !! infohash) as [old|] eqn:Hold;
      [|by rewrite Hold].
    simpl. split; [|split; [|split]]; [| |by rewrite lookup_insert_eq|done].
    - rewrite dom_insert_L.
      apply subseteq_union_1_L, singleton_subseteq_l, elem_of_dom.
      by eexists.
    - intros other Hother. by rewrite lookup_insert_ne. }
  destruct (u_seeders u =? 0); [exact Hst1|].
  destruct (popularity_community st1); exact Hst1.
Qed.

Lemma for_res_app {A B} (body : A → B → res A) l1 l2 a :
  for_res body (l1 ++ l2) a
  = res_bind (for_res body l1 a) (for_res body l2).
Proof.
  revert a. induction l1 as [|x l1 IH]; intros a; simpl; [done|].
  destruct (body a x); simpl; [apply IH|done].
Qed.

Lemma gui_body_final_entry fr u o fr' u' :
  gui_body (fr, u) o = Ok (fr', u') →
  ∃ k v, final_entry o = Some (k, v) ∧ fr' = <[k := v]> fr.
Proof.
  destruct o as [success [f|d|]]; simpl.
  - destruct success; simpl; [done|].
    destruct (f_tracker_url f) as [url|]; [|done].
    intros [= <- _]. by do 2 eexists.
  - destruct d as [|[key [|h hs]] d]; try done.
    destruct (improves _ _ _); intros [= <- _];
      exists key, (EHealth h); by destruct success.
  - done.
Qed.

Lemma reconcile_final_response infohash now result fr u :
  reconcile infohash now result = Ok (fr, u) →
  fr = list_to_map (omap final_entry result).
Proof.
  unfold reconcile. generalize (mkUpdate infohash 0 0 (py_int now)).
  revert fr u. induction result as [|o result IH]; intros fr u u0.
  - by intros [= <- _].
  - rewrite reverse_cons, for_res_app.
    destruct (for_res gui_body (reverse result) (∅, u0)) as [[fr1 u1]|e]
      eqn:Hl; cbn [res_bind for_res]; [|done].
    destruct (gui_body (fr1, u1) o) as [[fr2 u2]|e] eqn:Hb;
      cbn [res_bind]; [|done].
    intros [= <- <-]. apply IH in Hl as ->.
    apply gui_body_final_entry in Hb as (k & v & Hfe & ->).
    cbn [omap list_omap]. by rewrite Hfe.
Qed.

(** X4: the dict that [on_gui_request_completed] returns has one entry for
    each key that an outcome writes (a failure's [tracker_url], a result
    dict's first key), and when several outcomes write the same key the one
    that comes first in the result list wins: the loop runs over the
    reversed list, so the first outcome writes last. *)
Theorem final_response_first_wins infohash result st before o after k v :
  Forall well_formed result →
  result = before ++ o :: after →
  final_entry o = Some (k, v) →
  (∀ o' v', o' ∈ before → final_entry o' ≠ Some (k, v')) →
  ∃ fr st', on_gui_request_completed infohash result st = (Ok fr, st')
    ∧ fr = list_to_map (omap final_entry result)
    ∧ fr !! k = Some v.
Proof.
  intros Hwf -> Ho Hbefore.
  destruct (reconcile_returns infohash (clock st) _ Hwf)
    as (fr & u & Hr & _).
  rewrite on_gui_request_completed_eq, Hr. cbn zeta.
  do 2 eexists. split; [reflexivity|].
  apply reconcile_final_response in Hr as ->. split; [done|].
  clear Hwf. induction before as [|o' before IH]; simpl.
  - rewrite Ho. simpl. apply lookup_insert_eq.
  - destruct (final_entry o') as [[k' v']|] eqn:Ho'; simpl.
    + rewrite lookup_insert_ne.
      * apply IH. intros o1 v1 Ho1. apply Hbefore. by right.
      * intros ->. apply (Hbefore o' v'); [left|done].
    + apply IH. intros o1 v1 Ho1. apply Hbefore. by right.
Qed.

Lemma final_response_first_wins_witness :
  ∃ fr st',
    on_gui_request_completed "ih"
      ([(true, RDict [("DHT", [mkHealth 1 1 "ih"])])]
         ++ (true, RDict [("http://b", [mkHealth 5 2 "ih"])])
         :: [(true, RDict [("http://b", [mkHealth 7 0 "ih"])])])
      example_checker
    = (Ok fr, st')
    ∧ fr = list_to_map
             (omap final_entry
                ([(true, RDict [("DHT", [mkHealth 1 1 "ih"])])]
                   ++ (true, RDict [("http://b", [mkHealth 5 2 "ih"])])
                   :: [(true, RDict [("http://b", [mkHealth 7 0 "ih"])])]))
    ∧ fr !! "http://b" = Some (EHealth (mkHealth 5 2 "ih")).
Proof.
  apply (final_response_first_wins "ih" _ example_checker
           [(true, RDict [("DHT", [mkHealth 1 1 "ih"])])]
           (true, RDict [("http://b", [mkHealth 5 2 "ih"])])
           [(true, RDict [("http://b", [mkHealth 7 0 "ih"])])]).
  - repeat constructor; by eexists.
  - reflexivity.
  - reflexivity.
  - intros o' v' Ho'. apply list_elem_of_singleton in Ho' as ->.
    simpl. discriminate.
Defined.

(** X5: once [shutdown] has run, [_on_result_from_session] drops every
    result: it returns [None] and leaves the state alone, the session
    included; and an aggregated check that gets such a [None] from one of
    its participants ends in an exception, with nothing stored, published or
    notified. *)
Theorem results_after_shutdown_are_dropped st s result_list infohash result :
  (true, RNone) ∈ result →
  let st' := (shutdown st).2 in
  _on_result_from_session s result_list st' = (Ok RNone, st')
  ∧ ∃ e, on_gui_request_completed infohash result st' = (Raise e, st').
Proof.
  intros Hin st'. split.
  - assert (Hstop : _should_stop st' = true).
    { subst st'. pose proof (shutdown_eq st) as Heq. cbn zeta in Heq.
      rewrite Heq. unfold stopping. simpl.
      by destruct (udp_port st), (connection_pool st). }
    unfold _on_result_from_session, mbind, M_bind, get.
    by rewrite Hstop.
  - assert (Hnwf : ¬ Forall well_formed result).
    { intros Hwf. eapply Forall_forall in Hwf; [|exact Hin].
      destruct Hwf as [x Hx]. discriminate Hx. }
    destruct (reconcile_raises infohash (clock st') _ Hnwf) as [e He].
    exists e. by rewrite on_gui_request_completed_eq, He.
Qed.

Lemma results_after_shutdown_are_dropped_witness :
  _on_result_from_session example_session
    (RDict [("http://tracker/announce", [mkHealth 5 9 "ih"])])
    (shutdown example_probing).2
  = (Ok RNone, (shutdown example_probing).2)
  ∧ ∃ e, on_gui_request_completed "ih"
           [(true, RNone);
            (false, RFailure (mkFailure CancelledError "" (Some "DHT")))]
           (shutdown example_probing).2
         = (Raise e, (shutdown example_probing).2).
Proof.
  apply (results_after_shutdown_are_dropped example_probing example_session
           (RDict [("http://tracker/announce", [mkHealth 5 9 "ih"])]) "ih"
           [(true, RNone);
            (false, RFailure (mkFailure CancelledError "" (Some "DHT")))]).
  left.
Defined.

(** ** More on the registry *)

Lemma list_remove_app_fresh s l :
  sid s ∉ sid <$> l → list_remove s (l ++ [s]) = Some l.
Proof.
  induction l as [|x l IH]; simpl.
  - intros _. by rewrite decide_True.
  - rewrite not_elem_of_cons. intros [Hne Hl].
    rewrite decide_False by done. by rewrite IH.
Qed.

(** X6: in a state where the registry is in order, retiring the session
    that [_create_session_for_request] has just made goes through and puts
    the registry back as it was before the session was made: an identity
    that the session opened is closed again, one that was there keeps the
    sessions it had. *)
Theorem create_then_clean_restores_registry parses url tmo st s st1 :
  registry_ok st →
  _create_session_for_request parses url tmo st = (Ok s, st1) →
  ∃ st2, clean_session s st1 = (Ok tt, st2)
    ∧ _session_list st2 = _session_list st.
Proof.
  intros [[Hdht Hne] Hd]. rewrite _create_session_for_request_eq.
  destruct (parses url); [|done]. cbn zeta. intros [= <- <-].
  rewrite clean_session_eq. cbn [tracker_url _session_list set_session_list].
  rewrite lookup_insert_eq.
  assert (Hfresh : fresh st ∉ sid <$> default [] (_session_list st !! url)).
  { destruct (_session_list st !! url) as [l|] eqn:Hl; simpl.
    - destruct (Hd _ _ Hl) as [_ Hlt]. intros Hin.
      apply list_elem_of_fmap in Hin as (x & Hx & Hin).
      specialize (Hlt x Hin). lia.
    - apply not_elem_of_nil. }
  rewrite (list_remove_app_fresh (mkSession (fresh st) url tmo false) _
             Hfresh).
  eexists. split; [reflexivity|]. rewrite eqb_DHT. simpl.
  destruct (_session_list st !! url) as [l|] eqn:Hl; simpl.
  - assert (bool_decide (length l = 0%nat)
            && negb (bool_decide (url = "DHT")) = false) as ->.
    { destruct (decide (url = "DHT")) as [->|Hn].
      - by rewrite andb_false_r.
      - rewrite bool_decide_eq_false_2; [done|].
        specialize (Hne url l Hl Hn). by destruct l. }
    rewrite insert_insert_eq. by apply insert_id.
  - assert (url ≠ "DHT") as Hn.
    { intros ->. destruct Hdht as [? Hx]. congruence. }
    rewrite (bool_decide_eq_false_2 _ Hn). simpl.
    rewrite insert_insert_eq, delete_insert_eq. by apply delete_id.
Qed.

Lemma create_then_clean_restores_registry_witness :
  ∃ st2,
    clean_session example_session
      (_create_session_for_request (λ _, true) "http://tracker/announce" 20
         example_checker).2
    = (Ok tt, st2)
    ∧ _session_list st2 = _session_list example_checker.
Proof.
  apply (create_then_clean_restores_registry (λ _, true)
           "http://tracker/announce" 20 example_checker).
  - apply registry_ok_init.
  - reflexivity.
Defined.

(** ** More on session errors *)

Lemma on_session_error_eq s failure st :
  on_session_error s failure st
  = if bool_decide (f_type failure ∈ [ValueError; CancelledError;
                                       ConnectingCancelledError;
                                       ConnectionLost; RuntimeError])
    then
      match clean_session s st with
      | (Ok _, st1) =>
          (Ok {| f_type := f_type failure; f_message := f_message failure;
                 f_tracker_url := Some (tracker_url s) |},
           if bool_decide (f_type failure ∈ [CancelledError;
                                              ConnectingCancelledError])
           then st1
           else (update_tracker_info (tracker_url s) false st1).2)
      | (Raise e, st1) => (Raise e, st1)
      end
    else (Raise (f_type failure), st).
Proof.
  unfold on_session_error. case_bool_decide; [|done].
  unfold mbind, M_bind. destruct (clean_session s st) as [[[]|e] st1]; [|done].
  by case_bool_decide.
Qed.

Lemma reportable_class e :
  e ∈ [ValueError; ConnectionLost; RuntimeError] →
  bool_decide (e ∈ [ValueError; CancelledError; ConnectingCancelledError;
                    ConnectionLost; RuntimeError]) = true
  ∧ bool_decide (e ∈ [CancelledError; ConnectingCancelledError]) = false.
Proof.
  intros H. apply (bool_decide_eq_true_2 _) in H.
  destruct e; vm_compute in H; try discriminate H; split; reflexivity.
Qed.

Lemma clean_session_clock s st : clock (clean_session s st).2 = clock st.
Proof.
  rewrite clean_session_eq.
  destruct (_session_list st !! tracker_url s) as [l|]; [|done].
  by destruct (list_remove s l).
Qed.

(** X7: when the probe of a registered session fails with [ValueError],
    [ConnectionLost] or [RuntimeError], [on_session_error] reports to the
    tracker manager twice, once through [clean_session] with [not
    is_failed] and once more with [False]: the tracker's failure count goes
    up by two when the session was marked failed, and ends at one, whatever
    it was, when it was not. *)
Theorem reportable_failure_counts s failure st t :
  f_type failure ∈ [ValueError; ConnectionLost; RuntimeError] →
  (clean_session s st).1 = Ok tt →
  TrackerState_table st !! tracker_url s = Some t →
  TrackerState_table (on_session_error s failure st).2
  = TrackerState_table
      (update_tracker_info (tracker_url s) false
         (update_tracker_info (tracker_url s) (negb (is_failed s)) st).2).2
  ∧ failures <$> TrackerState_table (on_session_error s failure st).2
                   !! tracker_url s
    = Some (if is_failed s then failures t + 2 else 1).
Proof.
  intros Hty Hclean Ht. rewrite on_session_error_eq.
  destruct (reportable_class _ Hty) as [-> ->].
  pose proof (clean_session_tracker_state s st) as Htr.
  pose proof (clean_session_clock s st) as Hclock.
  destruct (clean_session s st) as [[[]|e] st1]; [|done].
  cbn [snd] in *. unfold update_tracker_info, modify in *. cbn [snd] in *.
  simpl. rewrite Htr, Hclock. simpl. split; [done|].
  rewrite !lookup_alter_eq, Ht. simpl.
  destruct (is_failed s); simpl; f_equal; lia.
Qed.

Lemma reportable_failure_counts_witness :
  TrackerState_table
    (on_session_error example_session (mkFailure ConnectionLost "lost" None)
       example_probing).2
  = TrackerState_table
      (update_tracker_info (tracker_url example_session) false
         (update_tracker_info (tracker_url example_session)
            (negb (is_failed example_session)) example_probing).2).2
  ∧ failures <$> TrackerState_table
                   (on_session_error example_session
                      (mkFailure ConnectionLost "lost" None)
                      example_probing).2
                   !! tracker_url example_session
    = Some (if is_failed example_session then 3 + 2 else 1).
Proof.
  apply (reportable_failure_counts example_session
           (mkFailure ConnectionLost "lost" None) example_probing
           (mkTrackerState 3 0)).
  - right. left.
  - vm_compute. reflexivity.
  - vm_compute. reflexivity.
Defined.

(** X8: for a failure of one of the five trapped classes,
    [on_session_error] on a registered session retires the session and
    returns the failure with the session's [tracker_url] attached, which is
    what [on_gui_request_completed] needs to list it under that tracker;
    for a failure of any other class it raises that failure again and
    leaves the state alone (the session stays registered). *)
Theorem on_session_error_classifies s failure st :
  (f_type failure ∈ [ValueError; CancelledError; ConnectingCancelledError;
                     ConnectionLost; RuntimeError] →
   (clean_session s st).1 = Ok tt →
   ∃ failure' st',
     on_session_error s failure st = (Ok failure', st')
     ∧ _session_list st' = _session_list (clean_session s st).2
     ∧ f_type failure' = f_type failure
     ∧ final_entry (false, RFailure failure')
       = Some (tracker_url s, EError (f_message failure)))
  ∧ (f_type failure ∉ [ValueError; CancelledError; ConnectingCancelledError;
                       ConnectionLost; RuntimeError] →
     on_session_error s failure st = (Raise (f_type failure), st)).
Proof.
  rewrite on_session_error_eq. split.
  - intros Hty Hclean. rewrite (bool_decide_eq_true_2 _ Hty).
    destruct (clean_session s st) as [[[]|e] st1]; [|done].
    do 2 eexists. split; [reflexivity|]. split; [|done].
    case_bool_decide; done.
  - intros Hty. by rewrite (bool_decide_eq_false_2 _ Hty).
Qed.

Lemma on_session_error_classifies_witness :
  ∃ failure' st',
    on_session_error example_session (mkFailure ValueError "bad reply" None)
      example_probing
    = (Ok failure', st')
    ∧ _session_list st'
      = _session_list (clean_session example_session example_probing).2
    ∧ f_type failure' = ValueError
    ∧ final_entry (false, RFailure failure')
      = Some (tracker_url example_session, EError "bad reply").
Proof.
  apply (proj1 (on_session_error_classifies example_session
                  (mkFailure ValueError "bad reply" None) example_probing)).
  - left.
  - vm_compute. reflexivity.
Defined.

(** ** More on on-demand checks *)

Lemma registered_mono tmo urls : ∀ n m url l s,
  m !! url = Some l → s ∈ l →
  ∃ l', registered n tmo urls m !! url = Some l' ∧ s ∈ l'.
Proof.
  induction urls as [|u urls IH]; intros n m url l s Hl Hs; simpl.
  - by exists l.
  - destruct (decide (u = url)) as [->|Hne].
    + eapply IH; [apply lookup_insert_eq|].
      rewrite Hl. simpl. apply elem_of_app. by left.
    + eapply IH; [|exact Hs]. by rewrite lookup_insert_ne.
Qed.

Lemma registered_lookup tmo urls : ∀ n m i url,
  urls !! i = Some url →
  ∃ l, registered n tmo urls m !! url = Some l
       ∧ mkSession (n + i) url tmo false ∈ l.
Proof.
  induction urls as [|u urls IH]; intros n m i url Hi; [done|].
  destruct i as [|i]; simpl in *.
  - injection Hi as ->. eapply registered_mono; [apply lookup_insert_eq|].
    rewrite Nat.add_0_r. apply elem_of_app. right. left.
  - replace (n + S i)%nat with (S n + i)%nat by lia. by apply IH.
Qed.

Lemma registered_is_Some tmo urls : ∀ n m k,
  is_Some (m !! k) → is_Some (registered n tmo urls m !! k).
Proof.
  induction urls as [|u urls IH]; intros n m k Hk; simpl; [done|].
  apply IH. destruct (decide (u = k)) as [->|Hne].
  - rewrite lookup_insert_eq. by eexists.
  - by rewrite lookup_insert_ne.
Qed.

(** The state after the fan-out loop ran over [urls]. *)
Lemma after_probes_step (st : checker) n infohash tmo url urls :
  let s := mkSession (fresh st) url tmo false in
  let st2 :=
    set_calls ((calls st ++ [AddInfohash (fresh st) infohash])
               ++ [ConnectToTracker (fresh st)])
      (set_session_list
         (<[url := default [] (_session_list st !! url) ++ [s]]>
            (_session_list st))
         (set_fresh (S (fresh st)) st)) in
  n = fresh st →
  set_calls (calls st2 ++ probe_calls (fresh st2) infohash urls)
    (set_session_list (registered (fresh st2) tmo urls (_session_list st2))
       (set_fresh (fresh st2 + length urls) st2))
  = set_calls (calls st ++ probe_calls n infohash (url :: urls))
      (set_session_list (registered n tmo (url :: urls) (_session_list st))
         (set_fresh (n + length (url :: urls)) st)).
Proof.
  intros s st2 ->. subst st2 s.
  unfold set_calls, set_session_list, set_fresh.
  cbn [_should_stop _torrent_check_interval _torrent_check_retry_interval
       _max_torrent_check_retries _session_list session_stop_defer_list
       udp_port connection_pool tasks clock fresh TorrentState_table
       TrackerState_table popularity_community notified calls
       registered probe_calls length].
  replace (S (fresh st) + length urls)%nat
    with (fresh st + S (length urls))%nat by lia.
  assert (Hc : ((calls st ++ [AddInfohash (fresh st) infohash])
                ++ [ConnectToTracker (fresh st)])
               ++ probe_calls (S (fresh st)) infohash urls
               = calls st ++ AddInfohash (fresh st) infohash
                   :: ConnectToTracker (fresh st)
                   :: probe_calls (S (fresh st)) infohash urls)
    by (by rewrite <- !app_assoc).
  by rewrite Hc.
Qed.

Lemma fan_out_loop parses infohash tmo urls : ∀ st,
  Forall (λ u, parses u = true) urls →
  for_M (λ url, s ← _create_session_for_request parses url tmo;
                add_infohash s infohash;;
                connect_to_tracker s;;
                mret (sid s))
        urls st
  = (Ok (seq (fresh st) (length urls)),
     set_calls (calls st ++ probe_calls (fresh st) infohash urls)
       (set_session_list (registered (fresh st) tmo urls (_session_list st))
          (set_fresh (fresh st + length urls) st))).
Proof.
  induction urls as [|url urls IH]; intros st Hp.
  - simpl. unfold mret, M_ret. f_equal. destruct st.
    unfold set_calls, set_session_list, set_fresh. simpl.
    by rewrite app_nil_r, Nat.add_0_r.
  - apply Forall_cons in Hp as [Hurl Hp].
    cbn [for_M]. unfold mbind, M_bind at 1. unfold mbind, M_bind at 1.
    rewrite _create_session_for_request_eq, Hurl. cbn zeta.
    unfold add_infohash, connect_to_tracker, modify, mbind, M_bind, mret,
      M_ret. cbn beta iota. cbn [sid].
    fold (@mbind M _). unfold mbind, M_bind.
    rewrite (IH _ Hp). cbn beta iota. f_equal.
    apply (after_probes_step st (fresh st) infohash tmo url urls eq_refl).
Qed.

Lemma fan_out_loop_raises parses infohash tmo good bad rest : ∀ st,
  Forall (λ u, parses u = true) good → parses bad = false →
  for_M (λ url, s ← _create_session_for_request parses url tmo;
                add_infohash s infohash;;
                connect_to_tracker s;;
                mret (sid s))
        (good ++ bad :: rest) st
  = (Raise MalformedTrackerURLException,
     set_calls (calls st ++ probe_calls (fresh st) infohash good)
       (set_session_list (registered (fresh st) tmo good (_session_list st))
          (set_fresh (fresh st + length good) st))).
Proof.
  induction good as [|url good IH]; intros st Hp Hbad.
  - cbn [app for_M]. unfold mbind, M_bind at 1. unfold mbind, M_bind at 1.
    rewrite _create_session_for_request_eq, Hbad. f_equal. destruct st.
    unfold set_calls, set_session_list, set_fresh. simpl.
    by rewrite app_nil_r, Nat.add_0_r.
  - apply Forall_cons in Hp as [Hurl Hp].
    cbn [app for_M]. unfold mbind, M_bind at 1. unfold mbind, M_bind at 1.
    rewrite _create_session_for_request_eq, Hurl. cbn zeta.
    unfold add_infohash, connect_to_tracker, modify, mbind, M_bind, mret,
      M_ret. cbn beta iota. cbn [sid].
    fold (@mbind M _). unfold mbind, M_bind.
    rewrite (IH _ Hp Hbad). cbn beta iota. f_equal.
    apply (after_probes_step st (fresh st) infohash tmo url good eq_refl).
Qed.

Lemma add_gui_request_fan_out parses is_valid_url set_order infohash tmo
    scrape_now st :
  short_circuits infohash scrape_now st = false →
  add_gui_request parses is_valid_url set_order infohash tmo scrape_now st
  = fan_out parses infohash tmo
      (tracker_set_of is_valid_url set_order infohash st) st.
Proof.
  unfold short_circuits, tracker_set_of, add_gui_request, mbind,
    M_bind at 1, get.
  destruct (TorrentState_table st !! infohash) as [result|] eqn:Hr; [|done].
  cbn zeta. intros ->. unfold mbind, M_bind at 1.
  unfold get_valid_trackers_of_torrent, mbind, M_bind at 1, get.
  by rewrite Hr.
Qed.

Lemma backwards_iterates_sets : iterates_sets backwards.
Proof.
  intros l. unfold backwards. split.
  - rewrite reverse_Permutation. apply NoDup_remove_dups.
  - intros u. by rewrite elem_of_reverse, elem_of_remove_dups.
Qed.

(** X9: an on-demand check that does not short-circuit, on a torrent all
    of whose valid trackers parse, makes one session per valid tracker of
    the torrent, each tracker once, in whatever order the tracker set is
    iterated, and one DHT session after them; it attaches the infohash to
    each tracker session and starts every probe; the deferred it returns
    joins exactly these sessions, each tracker session is registered under
    its tracker and the DHT session is the last one under ["DHT"]. *)
Theorem add_gui_request_fans_out parses is_valid_url set_order infohash tmo
    scrape_now st :
  iterates_sets set_order →
  is_Some (_session_list st !! "DHT") →
  short_circuits infohash scrape_now st = false →
  Forall (λ u, parses u = true)
    (tracker_set_of is_valid_url set_order infohash st) →
  ∃ tracker_set st',
    tracker_set = tracker_set_of is_valid_url set_order infohash st
    ∧ NoDup tracker_set
    ∧ (∀ url, url ∈ tracker_set ↔
         ∃ torrent, TorrentState_table st !! infohash = Some torrent
                    ∧ url ∈ trackers torrent ∧ is_valid_url url = true)
    ∧ add_gui_request parses is_valid_url set_order infohash tmo scrape_now
        st
      = (Ok (Joined (seq (fresh st) (S (length tracker_set)))), st')
    ∧ calls st'
      = calls st ++ probe_calls (fresh st) infohash tracker_set
        ++ [ConnectToTracker (fresh st + length tracker_set)]
    ∧ (∀ i url, tracker_set !! i = Some url →
         ∃ l, _session_list st' !! url = Some l
              ∧ mkSession (fresh st + i) url tmo false ∈ l)
    ∧ (∃ l, _session_list st' !! "DHT" = Some l
            ∧ last l
              = Some (mkSession (fresh st + length tracker_set) "DHT" tmo
                        false)).
Proof.
  intros Horder Hdht Hskip Hp.
  rewrite (add_gui_request_fan_out _ _ _ _ _ _ _ Hskip).
  set (urls := tracker_set_of is_valid_url set_order infohash st) in *.
  exists urls.
  unfold fan_out, mbind, M_bind at 1. rewrite (fan_out_loop _ _ _ _ _ Hp).
  unfold new_id, get, modify, connect_to_tracker, mbind, M_bind, mret, M_ret.
  cbn beta iota. cbn [fresh set_calls set_session_list set_fresh
                      _session_list calls sid].
  destruct (registered_is_Some tmo urls (fresh st) _ "DHT" Hdht) as [l Hl].
  rewrite Hl. cbn beta iota.
  eexists. split; [done|]. split; [|split].
  { subst urls. unfold tracker_set_of.
    destruct (TorrentState_table st !! infohash); [|constructor].
    apply Horder. }
  { intros url. subst urls. unfold tracker_set_of.
    destruct (TorrentState_table st !! infohash) as [torrent|].
    - destruct (Horder (filter (λ u, is_valid_url u = true)
                          (trackers torrent))) as [_ ->].
      rewrite list_elem_of_filter. split.
      + intros [Hv Hin]. by exists torrent.
      + by intros (? & [= <-] & Hin & Hv).
    - split; [intros H; by apply not_elem_of_nil in H|].
      by intros (? & ? & _). }
  split.
  { f_equal. f_equal. rewrite seq_S. reflexivity. }
  cbn [calls set_calls set_fresh _session_list set_session_list].
  split; [|split].
  - by rewrite <- app_assoc.
  - intros i url Hi.
    destruct (registered_lookup tmo urls (fresh st) (_session_list st) i url
                Hi) as (l0 & Hl0 & Hin).
    destruct (decide (url = "DHT")) as [->|Hne].
    + rewrite lookup_insert_eq. eexists. split; [done|].
      rewrite Hl in Hl0. injection Hl0 as <-. apply elem_of_app. by left.
    + rewrite lookup_insert_ne by done. by exists l0.
  - rewrite lookup_insert_eq. eexists. split; [done|]. by rewrite last_snoc.
Qed.

Lemma add_gui_request_fans_out_witness :
  ∃ tracker_set st',
    tracker_set = tracker_set_of (λ _, true) backwards "ih"
                    example_two_trackers
    ∧ NoDup tracker_set
    ∧ (∀ url, url ∈ tracker_set ↔
         ∃ torrent,
           TorrentState_table example_two_trackers !! "ih" = Some torrent
           ∧ url ∈ trackers torrent ∧ (λ _ : string, true) url = true)
    ∧ add_gui_request (λ _, true) (λ _, true) backwards "ih" 20 false
        example_two_trackers
      = (Ok (Joined (seq (fresh example_two_trackers)
                       (S (length tracker_set)))), st')
    ∧ calls st'
      = calls example_two_trackers
        ++ probe_calls (fresh example_two_trackers) "ih" tracker_set
        ++ [ConnectToTracker
              (fresh example_two_trackers + length tracker_set)]
    ∧ (∀ i url, tracker_set !! i = Some url →
         ∃ l, _session_list st' !! url = Some l
              ∧ mkSession (fresh example_two_trackers + i) url 20 false ∈ l)
    ∧ (∃ l, _session_list st' !! "DHT" = Some l
            ∧ last l
              = Some (mkSession
                        (fresh example_two_trackers + length tracker_set)
                        "DHT" 20 false)).
Proof.
  apply (add_gui_request_fans_out (λ _, true) (λ _, true) backwards "ih" 20
           false example_two_trackers).
  - apply backwards_iterates_sets.
  - vm_compute. by eexists.
  - vm_compute. reflexivity.
  - apply Forall_forall. intros u _. reflexivity.
Defined.

(** X10: when, in the order in which the tracker set is iterated, a
    tracker comes up that [create_tracker_session] cannot parse, the
    on-demand check raises [MalformedTrackerURLException] from the middle
    of its fan-out: the sessions made for the trackers that came before it
    stay registered with their probes started, and no session is made for
    the trackers that would come after it nor for the DHT. *)
Theorem add_gui_request_malformed_tracker parses is_valid_url set_order
    infohash tmo scrape_now st good bad rest :
  short_circuits infohash scrape_now st = false →
  tracker_set_of is_valid_url set_order infohash st = good ++ bad :: rest →
  Forall (λ u, parses u = true) good → parses bad = false →
  ∃ st',
    add_gui_request parses is_valid_url set_order infohash tmo scrape_now st
    = (Raise MalformedTrackerURLException, st')
    ∧ fresh st' = (fresh st + length good)%nat
    ∧ _session_list st'
      = registered (fresh st) tmo good (_session_list st)
    ∧ calls st' = calls st ++ probe_calls (fresh st) infohash good
    ∧ (∀ i url, good !! i = Some url →
         ∃ l, _session_list st' !! url = Some l
              ∧ mkSession (fresh st + i) url tmo false ∈ l).
Proof.
  intros Hskip Hset Hgood Hbad.
  rewrite (add_gui_request_fan_out _ _ _ _ _ _ _ Hskip), Hset.
  unfold fan_out, mbind, M_bind at 1.
  rewrite (fan_out_loop_raises _ _ _ _ _ _ _ Hgood Hbad).
  eexists. split; [reflexivity|]. simpl. repeat split.
  intros i url Hi. by apply registered_lookup.
Qed.

Lemma add_gui_request_malformed_tracker_witness :
  ∃ st',
    add_gui_request (String.eqb "udp://b") (λ _, true) backwards "ih" 20
      false example_two_trackers
    = (Raise MalformedTrackerURLException, st')
    ∧ fresh st' = (fresh example_two_trackers + length ["udp://b"])%nat
    ∧ _session_list st'
      = registered (fresh example_two_trackers) 20 ["udp://b"]
          (_session_list example_two_trackers)
    ∧ calls st'
      = calls example_two_trackers
        ++ probe_calls (fresh example_two_trackers) "ih" ["udp://b"]
    ∧ (∀ i url, ["udp://b"] !! i = Some url →
         ∃ l, _session_list st' !! url = Some l
              ∧ mkSession (fresh example_two_trackers + i) url 20 false ∈ l).
Proof.
  apply (add_gui_request_malformed_tracker (String.eqb "udp://b")
           (λ _, true) backwards "ih" 20 false example_two_trackers
           ["udp://b"] "udp://a:80" []).
  - vm_compute. reflexivity.
  - vm_compute. reflexivity.
  - repeat constructor.
  - reflexivity.
Defined.

(** ** The periodic selection *)

Section Selection_facts.

Variable parses : string → bool.
Variable is_valid_url : string → bool.
Variable next_tracker : gmap string TrackerState → option string.

Lemma set_TrackerState_table_twice m m' st :
  set_TrackerState_table m (set_TrackerState_table m' st)
  = set_TrackerState_table m st.
Proof. done. Qed.

Lemma set_TrackerState_table_same st :
  set_TrackerState_table (TrackerState_table st) st = st.
Proof. by destruct st. Qed.

(** The purge loop, from a state whose store has at most [fuel] trackers. *)
Lemma purge_invalid_terminates fuel : ∀ st,
  proposes_known next_tracker →
  (size (TrackerState_table st) ≤ fuel)%nat →
  ∃ r st',
    purge_invalid is_valid_url next_tracker fuel
      (next_tracker (TrackerState_table st)) st
    = (Ok (Some r), st')
    ∧ st' = set_TrackerState_table (TrackerState_table st') st
    ∧ r = next_tracker (TrackerState_table st')
    ∧ (∀ url, r = Some url → url = "" ∨ is_valid_url url = true)
    ∧ TrackerState_table st' ⊆ TrackerState_table st
    ∧ (∀ url, is_Some (TrackerState_table st !! url) →
         TrackerState_table st' !! url = None →
         url ≠ "" ∧ is_valid_url url = false).
Proof.
  induction fuel as [|fuel IH]; intros st Hknown Hsize.
  - (* an empty store proposes nothing *)
    assert (Hnone : next_tracker (TrackerState_table st) = None).
    { destruct (next_tracker (TrackerState_table st)) as [url|] eqn:Hn;
        [|done].
      apply Hknown in Hn as [t Ht].
      assert (TrackerState_table st = ∅) as Hempty
        by (apply map_size_empty_iff; lia).
      by rewrite Hempty, lookup_empty in Ht. }
    rewrite Hnone. simpl. exists None, st. split; [done|].
    split; [by rewrite set_TrackerState_table_same|].
    split; [done|]. split; [done|]. split; [done|].
    intros url [t Ht] Hn. congruence.
  - destruct (next_tracker (TrackerState_table st)) as [url|] eqn:Hn.
    2:{ simpl. exists None, st. split; [done|].
        split; [by rewrite set_TrackerState_table_same|].
        split; [done|]. split; [done|]. split; [done|].
        intros url [t Ht] Hnone. congruence. }
    cbn [purge_invalid].
    destruct (negb (String.eqb url "") && negb (is_valid_url url)) eqn:Hbad.
    2:{ exists (Some url), st. split; [done|].
        split; [by rewrite set_TrackerState_table_same|].
        split; [done|]. split.
        - intros ? [= <-]. apply andb_false_iff in Hbad as [Hb|Hb].
          + left. apply negb_false_iff in Hb. by apply String.eqb_eq.
          + right. by apply negb_false_iff.
        - split; [done|]. intros url' [t Ht] Hnone. congruence. }
    apply andb_true_iff in Hbad as [Hne Hinv].
    apply negb_true_iff in Hne, Hinv.
    unfold remove_tracker, get_next_tracker_for_auto_check, modify, get,
      mbind, M_bind, mret, M_ret. cbn beta iota.
    set (st1 := set_TrackerState_table
                  (delete url (TrackerState_table st)) st).
    change (TrackerState_table st1) with
      (delete url (TrackerState_table st)).
    destruct (IH st1 Hknown) as (r & st' & Hrun & Hst' & Hr & Hvalid & Hsub
                                 & Hgone).
    { subst st1. cbn [TrackerState_table set_TrackerState_table].
      rewrite map_size_delete_Some by (by apply Hknown in Hn).
      assert (size (TrackerState_table st) ≠ 0%nat).
      { intros Hz. apply map_size_empty_iff in Hz.
        apply Hknown in Hn as [t Ht]. by rewrite Hz, lookup_empty in Ht. }
      lia. }
    change (TrackerState_table st1) with
      (delete url (TrackerState_table st)) in Hrun, Hsub, Hgone.
    exists r, st'. split; [exact Hrun|]. split.
    { rewrite Hst' at 1. subst st1.
      by rewrite set_TrackerState_table_twice. }
    split; [done|]. split; [done|]. split.
    { etrans; [exact Hsub|]. apply delete_subseteq. }
    intros url' Hurl' Hnone'.
    destruct (decide (url' = url)) as [->|Hother].
    + split; [|done]. intros ->. by rewrite String.eqb_refl in Hne.
    + apply Hgone; [|done]. by rewrite lookup_delete_ne.
Qed.

(** X12: when the tracker manager only proposes trackers of its store,
    the loop of [get_valid_next_tracker_for_auto_check] ends after at most
    as many rounds as the store has trackers; what it returns is what the
    manager proposes in the store it leaves, and is no tracker, or a valid
    tracker, or the empty string; it has removed trackers only, all of them
    invalid, and changed nothing else. *)
Theorem get_valid_next_tracker_terminates fuel st :
  proposes_known next_tracker →
  (size (TrackerState_table st) ≤ fuel)%nat →
  ∃ r st',
    get_valid_next_tracker_for_auto_check is_valid_url next_tracker fuel st
    = (Ok (Some r), st')
    ∧ st' = set_TrackerState_table (TrackerState_table st') st
    ∧ r = next_tracker (TrackerState_table st')
    ∧ (∀ url, r = Some url → url = "" ∨ is_valid_url url = true)
    ∧ TrackerState_table st' ⊆ TrackerState_table st
    ∧ (∀ url, is_Some (TrackerState_table st !! url) →
         TrackerState_table st' !! url = None →
         url ≠ "" ∧ is_valid_url url = false).
Proof.
  intros Hknown Hsize.
  unfold get_valid_next_tracker_for_auto_check,
    get_next_tracker_for_auto_check, get, mbind, M_bind, mret, M_ret.
  cbn beta iota. by apply purge_invalid_terminates.
Qed.

End Selection_facts.

Lemma first_tracker_proposes_known : proposes_known first_tracker.
Proof.
  intros m url. unfold first_tracker.
  destruct (map_to_list m) as [|[k t] l] eqn:Hl; [done|].
  simpl. intros [= <-]. exists t. apply elem_of_map_to_list.
  rewrite Hl. left.
Qed.

Lemma get_valid_next_tracker_terminates_witness :
  ∃ r st',
    get_valid_next_tracker_for_auto_check (String.eqb "bad") first_tracker 2
      example_selection
    = (Ok (Some r), st')
    ∧ st' = set_TrackerState_table (TrackerState_table st') example_selection
    ∧ r = first_tracker (TrackerState_table st')
    ∧ (∀ url, r = Some url → url = "" ∨ String.eqb "bad" url = true)
    ∧ TrackerState_table st' ⊆ TrackerState_table example_selection
    ∧ (∀ url, is_Some (TrackerState_table example_selection !! url) →
         TrackerState_table st' !! url = None →
         url ≠ "" ∧ String.eqb "bad" url = false).
Proof.
  apply (get_valid_next_tracker_terminates (String.eqb "bad") first_tracker
           2%nat example_selection).
  - apply first_tracker_proposes_known.
  - vm_compute. lia.
Defined.

(** On that input the loop runs one round: the store proposes
    ["udp://a:80"] first, which is not valid here and is removed, and then
    ["bad"], which is. *)
Example purge_removes_invalid_tracker :
  first_tracker (TrackerState_table example_selection) = Some "udp://a:80"
  ∧ (get_valid_next_tracker_for_auto_check (String.eqb "bad") first_tracker 2
       example_selection).1
    = Ok (Some (Some "bad"))
  ∧ dom (TrackerState_table
           (get_valid_next_tracker_for_auto_check (String.eqb "bad")
              first_tracker 2 example_selection).2)
    = ({["bad"]} : gset string)
  ∧ (get_valid_next_tracker_for_auto_check (String.eqb "bad") first_tracker 0
       example_selection).1
    = Ok None.
Proof. repeat split; vm_compute; reflexivity. Qed.

Section Selection_task.

Variable parses : string → bool.
Variable is_valid_url : string → bool.
Variable next_tracker : gmap string TrackerState → option string.

Lemma get_valid_next_tracker_immediate fuel url st :
  next_tracker (TrackerState_table st) = Some url →
  url = "" ∨ is_valid_url url = true →
  get_valid_next_tracker_for_auto_check is_valid_url next_tracker fuel st
  = (Ok (Some (Some url)), st).
Proof.
  intros Hn Hv.
  unfold get_valid_next_tracker_for_auto_check,
    get_next_tracker_for_auto_check, get, mbind, M_bind, mret, M_ret.
  cbn beta iota. rewrite Hn.
  assert (negb (String.eqb url "") && negb (is_valid_url url) = false) as Hb.
  { destruct Hv as [-> | ->]; [done|]. by rewrite andb_false_r. }
  destruct fuel; simpl; by rewrite Hb.
Qed.

Lemma add_infohash_loop s infohashes : ∀ st,
  for_M (add_infohash s) infohashes st
  = (Ok ((λ _, tt) <$> infohashes),
     set_calls (calls st ++ (AddInfohash (sid s) <$> infohashes)) st).
Proof.
  induction infohashes as [|ih infohashes IH]; intros st.
  - simpl. unfold mret, M_ret. f_equal. destruct st.
    unfold set_calls. simpl. by rewrite app_nil_r.
  - cbn [for_M]. unfold mbind, M_bind at 1. unfold add_infohash at 1, modify.
    unfold mbind, M_bind. rewrite IH. cbn [fmap list_fmap]. f_equal.
    unfold set_calls. cbn [_should_stop _torrent_check_interval
      _torrent_check_retry_interval _max_torrent_check_retries _session_list
      session_stop_defer_list udp_port connection_pool tasks clock fresh
      TorrentState_table TrackerState_table popularity_community notified
      calls].
    by rewrite <- app_assoc.
Qed.

(** [_task_select_tracker] once a tracker that needs no purge is chosen. *)
Lemma _task_select_tracker_chosen fuel url st :
  next_tracker (TrackerState_table st) = Some url →
  url = "" ∨ is_valid_url url = true →
  _task_select_tracker parses is_valid_url next_tracker fuel st
  = let st0 := rescheduled st in
    let infohashes := select_infohashes url st in
    if bool_decide (length infohashes = 0%nat) then
      (Ok (Some SucceedNone), (update_tracker_info url true st0).2)
    else if negb (String.eqb url "DHT") && negb (String.eqb url "no-DHT")
    then
      if parses url then
        let s := mkSession (fresh st) url 30 false in
        (Ok (Some (Probe s)),
         set_calls (calls st ++ (AddInfohash (fresh st) <$> infohashes)
                    ++ [ConnectToTracker (fresh st)])
           (set_session_list
              (<[url := default [] (_session_list st !! url) ++ [s]]>
                 (_session_list st))
              (set_fresh (S (fresh st)) st0)))
      else (Ok (Some SucceedNone), (remove_tracker url st0).2)
    else (Ok (Some ReturnNone), st0).
Proof.
  intros Hn Hv. unfold _task_select_tracker, _reschedule_tracker_select,
    register_task, modify. unfold mbind, M_bind at 1.
  fold (rescheduled st). unfold mbind, M_bind at 1.
  rewrite (get_valid_next_tracker_immediate fuel url (rescheduled st) Hn Hv).
  unfold mbind, M_bind at 1, get.
  change (select_infohashes url (rescheduled st))
    with (select_infohashes url st).
  cbn zeta. case_bool_decide as Hlen.
  { unfold update_tracker_info, modify, mbind, M_bind, mret, M_ret. done. }
  destruct (negb (String.eqb url "DHT") && negb (String.eqb url "no-DHT"));
    [|done].
  unfold mbind, M_bind at 1, probe_tracker.
  rewrite _create_session_for_request_eq. destruct (parses url); [|done].
  cbn zeta. unfold mbind, M_bind at 1. rewrite add_infohash_loop.
  unfold connect_to_tracker, modify, mbind, M_bind, mret, M_ret.
  cbn beta iota. f_equal.
  unfold set_calls, set_session_list, set_fresh, rescheduled, set_tasks.
  cbn [_should_stop _torrent_check_interval
      _torrent_check_retry_interval _max_torrent_check_retries _session_list
      session_stop_defer_list udp_port connection_pool tasks clock fresh
      TorrentState_table TrackerState_table popularity_community notified
      calls sid].
  by rewrite <- app_assoc.
Qed.

(** X13: when the tracker chosen for this round has no torrent due -- none
    at all, or none whose interval has elapsed -- [_task_select_tracker]
    makes no session and starts no probe, and reports the tracker to the
    tracker manager as successfully checked: its failure count is back at
    zero. *)
Theorem task_select_nothing_due fuel url st :
  next_tracker (TrackerState_table st) = Some url →
  url = "" ∨ is_valid_url url = true →
  select_infohashes url st = [] →
  ∃ st',
    _task_select_tracker parses is_valid_url next_tracker fuel st
    = (Ok (Some SucceedNone), st')
    ∧ _session_list st' = _session_list st
    ∧ calls st' = calls st
    ∧ fresh st' = fresh st
    ∧ TrackerState_table st'
      = alter (λ t, {| failures := 0; tr_last_check := py_int (clock st) |})
          url (TrackerState_table st).
Proof.
  intros Hn Hv Hsel.
  rewrite (_task_select_tracker_chosen fuel url st Hn Hv). cbn zeta.
  rewrite Hsel. simpl. by eexists.
Qed.


(** X15: when torrents are due on the chosen tracker but
    [create_tracker_session] cannot parse its URL,
    [_task_select_tracker] catches the exception, removes the tracker from
    the tracker manager's store and registers no session. *)
Theorem task_select_malformed fuel url st :
  next_tracker (TrackerState_table st) = Some url →
  url = "" ∨ is_valid_url url = true →
  select_infohashes url st ≠ [] →
  url ≠ "DHT" → url ≠ "no-DHT" → parses url = false →
  ∃ st',
    _task_select_tracker parses is_valid_url next_tracker fuel st
    = (Ok (Some SucceedNone), st')
    ∧ TrackerState_table st' = delete url (TrackerState_table st)
    ∧ _session_list st' = _session_list st
    ∧ calls st' = calls st
    ∧ fresh st' = fresh st.
Proof.
  intros Hn Hv Hsel Hdht Hnodht Hp.
  rewrite (_task_select_tracker_chosen fuel url st Hn Hv). cbn zeta.
  rewrite bool_decide_eq_false_2 by (by destruct (select_infohashes url st)).
  apply String.eqb_neq in Hdht, Hnodht. rewrite Hdht, Hnodht, Hp. simpl.
  by eexists.
Qed.

(** X16: when the chosen tracker is ["DHT"] or ["no-DHT"] and torrents are
    due on it, [_task_select_tracker] does nothing besides rescheduling
    itself: no session, no probe, and no report to the tracker manager
    either, so the tracker's [last_check] and failure count stay as they
    were. *)
Theorem task_select_skips_DHT fuel url st :
  next_tracker (TrackerState_table st) = Some url →
  is_valid_url url = true →
  select_infohashes url st ≠ [] →
  url = "DHT" ∨ url = "no-DHT" →
  _task_select_tracker parses is_valid_url next_tracker fuel st
  = (Ok (Some ReturnNone),
     set_tasks (tasks st ++ ["torrent_checker_tracker_selection"]) st).
Proof.
  intros Hn Hv Hsel Hurl.
  rewrite (_task_select_tracker_chosen fuel url st Hn (or_intror Hv)).
  cbn zeta.
  rewrite bool_decide_eq_false_2 by (by destruct (select_infohashes url st)).
  by destruct Hurl as [-> | ->].
Qed.

End Selection_task.

Lemma task_select_nothing_due_witness :
  ∃ st',
    _task_select_tracker (λ _, true) (λ _, true) first_tracker 1
      example_checker
    = (Ok (Some SucceedNone), st')
    ∧ _session_list st' = _session_list example_checker
    ∧ calls st' = calls example_checker
    ∧ fresh st' = fresh example_checker
    ∧ TrackerState_table st'
      = alter (λ t, {| failures := 0;
                       tr_last_check := py_int (clock example_checker) |})
          "http://tracker/announce" (TrackerState_table example_checker).
Proof.
  apply (task_select_nothing_due (λ _, true) (λ _, true) first_tracker 1
           "http://tracker/announce" example_checker).
  - vm_compute. reflexivity.
  - by right.
  - vm_compute. reflexivity.
Defined.


Lemma task_select_malformed_witness :
  ∃ st',
    _task_select_tracker (λ _, false) (λ _, true) first_tracker 2
      example_selection
    = (Ok (Some SucceedNone), st')
    ∧ TrackerState_table st'
      = delete "udp://a:80" (TrackerState_table example_selection)
    ∧ _session_list st' = _session_list example_selection
    ∧ calls st' = calls example_selection
    ∧ fresh st' = fresh example_selection.
Proof.
  apply (task_select_malformed (λ _, false) (λ _, true) first_tracker 2
           "udp://a:80" example_selection).
  - vm_compute. reflexivity.
  - by right.
  - vm_compute. discriminate.
  - discriminate.
  - discriminate.
  - reflexivity.
Defined.

Lemma task_select_skips_DHT_witness :
  _task_select_tracker (λ _, true) (λ _, true) first_tracker 1 example_dht
  = (Ok (Some ReturnNone),
     set_tasks (tasks example_dht ++ ["torrent_checker_tracker_selection"])
       example_dht).
Proof.
  apply (task_select_skips_DHT (λ _, true) (λ _, true) first_tracker 1 "DHT"
           example_dht).
  - vm_compute. reflexivity.
  - reflexivity.
  - vm_compute. discriminate.
  - by left.
Defined.

Section Selection_frame.

Variable parses : string → bool.
Variable is_valid_url : string → bool.
Variable next_tracker : gmap string TrackerState → option string.

(** The purge loop returns, and only the tracker store has changed. *)
Lemma purge_invalid_frame fuel : ∀ tracker_url st,
  ∃ r m,
    purge_invalid is_valid_url next_tracker fuel tracker_url st
    = (Ok r, set_TrackerState_table m st).
Proof.
  induction fuel as [|fuel IH]; intros [url|] st;
    try (exists (Some None), (TrackerState_table st); simpl;
         by rewrite set_TrackerState_table_same).
  - simpl. destruct (_ && _).
    + exists None, (TrackerState_table st).
      by rewrite set_TrackerState_table_same.
    + exists (Some (Some url)), (TrackerState_table st).
      by rewrite set_TrackerState_table_same.
  - cbn [purge_invalid]. destruct (_ && _).
    + unfold remove_tracker, get_next_tracker_for_auto_check, modify, get,
        mbind, M_bind, mret, M_ret. cbn beta iota.
      edestruct IH as (r & m & ->). exists r, m.
      by rewrite set_TrackerState_table_twice.
    + exists (Some (Some url)), (TrackerState_table st).
      by rewrite set_TrackerState_table_same.
Qed.

(** X17: whatever the tracker manager proposes, one round of
    [_task_select_tracker] returns without raising, makes at most one
    session and never one under ["DHT"], keeps the registry in order, and
    leaves the torrent table, the notifications, the popularity queue and
    the collected signals alone: it stores no health result by itself. *)
Theorem task_select_frame fuel st :
  ∃ r st',
    _task_select_tracker parses is_valid_url next_tracker fuel st
    = (Ok r, st')
    ∧ (fresh st' ≤ S (fresh st))%nat
    ∧ _session_list st' !! "DHT" = _session_list st !! "DHT"
    ∧ (registry_ok st → registry_ok st')
    ∧ TorrentState_table st' = TorrentState_table st
    ∧ notified st' = notified st
    ∧ popularity_community st' = popularity_community st
    ∧ session_stop_defer_list st' = session_stop_defer_list st.
Proof.
  unfold _task_select_tracker, _reschedule_tracker_select, register_task,
    modify. unfold mbind, M_bind at 1. fold (rescheduled st).
  unfold mbind, M_bind at 1, get_valid_next_tracker_for_auto_check.
  unfold mbind, M_bind at 1, get_next_tracker_for_auto_check.
  unfold mbind, M_bind at 1, get. unfold mret, M_ret at 1.
  destruct (purge_invalid_frame fuel
              (next_tracker (TrackerState_table (rescheduled st)))
              (rescheduled st)) as (r & m & ->).
  set (st1 := set_TrackerState_table m (rescheduled st)).
  assert (Hst1 : (fresh st1 ≤ S (fresh st))%nat
                 ∧ _session_list st1 !! "DHT" = _session_list st !! "DHT"
                 ∧ (registry_ok st → registry_ok st1)
                 ∧ TorrentState_table st1 = TorrentState_table st
                 ∧ notified st1 = notified st
                 ∧ popularity_community st1 = popularity_community st
                 ∧ session_stop_defer_list st1 = session_stop_defer_list st).
  { subst st1. split; [simpl; lia|]. split; [done|].
    split; [apply registry_ok_frame; simpl; [done|lia]|]. done. }
  destruct Hst1 as (Hf & Hd & Hok & Hts & Hnt & Hpop & Hdl).
  assert (Hfresh : fresh st1 = fresh st) by done.
  destruct r as [[url|]|]; try (by do 2 eexists).
  unfold mbind, M_bind at 1, get. cbn zeta.
  case_bool_decide.
  { unfold update_tracker_info, modify, mbind, M_bind, mret, M_ret.
    cbn beta iota. do 2 eexists. split; [reflexivity|].
    split; [simpl; lia|]. split; [done|]. split; [|done].
    intros Hst. apply Hok in Hst. revert Hst.
    apply registry_ok_frame; simpl; [done|lia]. }
  destruct (negb (String.eqb url "DHT") && negb (String.eqb url "no-DHT"))
    eqn:Hurl; [|by do 2 eexists].
  apply andb_true_iff in Hurl as [Hdht _].
  apply negb_true_iff, String.eqb_neq in Hdht.
  unfold mbind, M_bind at 1, probe_tracker.
  rewrite _create_session_for_request_eq. destruct (parses url).
  - cbn zeta. unfold mbind, M_bind at 1. rewrite add_infohash_loop.
    unfold connect_to_tracker, modify, mbind, M_bind, mret, M_ret.
    cbn beta iota. do 2 eexists. split; [reflexivity|].
    split; [simpl; lia|].
    split; [simpl; by rewrite lookup_insert_ne|].
    split; [|done].
    intros Hst. apply Hok in Hst.
    eapply registry_ok_frame;
      [| |apply (registry_ok_register url (mkSession (fresh st1) url 30 false)
                  _ st1 Hst eq_refl eq_refl eq_refl)];
      simpl; [done|lia].
  - unfold remove_tracker, modify, mbind, M_bind, mret, M_ret.
    cbn beta iota. do 2 eexists. split; [reflexivity|].
    split; [simpl; lia|]. split; [done|]. split; [|done].
    intros Hst. apply Hok in Hst. revert Hst.
    apply registry_ok_frame; simpl; [done|lia].
Qed.

End Selection_frame.

(** ** More on shutdown *)

Lemma all_cleanups_length n ls :
  length (all_cleanups n ls) = sum_list (length <$> ls).
Proof.
  revert n. induction ls as [|l ls IH]; intros n; simpl; [done|].
  by rewrite length_app, cleanups_length, IH.
Qed.

Lemma stopping_fields st :
  _session_list (stopping st) = _session_list st
  ∧ udp_port (stopping st) = false
  ∧ connection_pool (stopping st) = connection_pool st
  ∧ tasks (stopping st) = []
  ∧ length (session_stop_defer_list (stopping st))
    = (length (session_stop_defer_list st)
       + (if udp_port st then 1 else 0)
       + (if connection_pool st then 1 else 0))%nat.
Proof.
  unfold stopping. simpl.
  destruct (udp_port st) eqn:Hu, (connection_pool st) eqn:Hc; simpl;
    repeat split; try done; rewrite ?length_app; simpl; lia.
Qed.

(** X18: [shutdown] collects exactly one signal for the listener if there
    is one, one for the connection pool if there is one, and one cleanup per
    registered session, on top of those collected before; it forgets the
    listener and cancels the pending tasks but keeps the pool and the
    registry, so that a second [shutdown] asks the pool to close again and
    cleans every session up again, while it does not stop the listener
    twice. *)
Theorem shutdown_collects_exactly st :
  ∃ ds st' ds2 st2,
    shutdown st = (Ok ds, st')
    ∧ length ds
      = (length (session_stop_defer_list st)
         + (if udp_port st then 1 else 0)
         + (if connection_pool st then 1 else 0)
         + registered_sessions st)%nat
    ∧ udp_port st' = false
    ∧ connection_pool st' = connection_pool st
    ∧ tasks st' = []
    ∧ shutdown st' = (Ok ds2, st2)
    ∧ length ds2
      = (length ds + (if connection_pool st then 1 else 0)
         + registered_sessions st)%nat.
Proof.
  pose proof (shutdown_eq st) as Heq. cbn zeta in Heq.
  destruct (stopping_fields st) as (Hm & Hu & Hc & Ht & Hlen).
  set (ds := session_stop_defer_list (stopping st) ++ _) in Heq.
  set (st' := set_defer_list ds _) in Heq.
  pose proof (shutdown_eq st') as Heq2. cbn zeta in Heq2.
  destruct (stopping_fields st') as (Hm2 & Hu2 & Hc2 & Ht2 & Hlen2).
  do 4 eexists. split; [exact Heq|].
  assert (Hds : length ds
    = (length (session_stop_defer_list st)
       + (if udp_port st then 1 else 0)
       + (if connection_pool st then 1 else 0)
       + registered_sessions st)%nat).
  { subst ds. rewrite length_app, all_cleanups_length, Hlen.
    unfold registered_sessions. lia. }
  split; [exact Hds|].
  split; [exact Hu|]. split; [exact Hc|]. split; [exact Ht|].
  split; [exact Heq2|].
  rewrite length_app, all_cleanups_length, Hlen2.
  change (session_stop_defer_list st') with ds.
  change (udp_port st') with (udp_port (stopping st)).
  change (connection_pool st') with (connection_pool (stopping st)).
  change (_session_list st') with (_session_list (stopping st)).
  rewrite Hu, Hc, Hm. unfold registered_sessions. lia.
Qed.

(** X19: a checker that is shut down right after [initialize] collects the
    listener's stop signal (unless binding the UDP socket had failed, in
    which case [initialize] left a retry task instead of a listener) and
    then the connection pool's close signal, nothing else, and no task is
    left pending. *)
Theorem shutdown_after_initialize socket_error now ts tr pop :
  ∃ st ds st',
    initialize socket_error (TorrentChecker_init now ts tr pop) = (Ok tt, st)
    ∧ tasks st
      = "torrent_checker_tracker_selection"
          :: (if socket_error then ["listen_udp_port"] else [])
    ∧ udp_port st = negb socket_error
    ∧ shutdown st = (Ok ds, st')
    ∧ ds = (if socket_error then []
            else [mkDeferred 0 StopListening])
           ++ [mkDeferred (if socket_error then 0 else 1)%nat
                 CloseCachedConnections]
    ∧ tasks st' = [].
Proof.
  destruct socket_error; do 3 eexists;
    (split; [reflexivity|]); (split; [reflexivity|]);
    (split; [reflexivity|]); rewrite shutdown_eq; cbn zeta;
    (split; [reflexivity|]); (split; [|reflexivity]);
    simpl; by rewrite map_to_list_singleton.
Qed.
